(** * AP_MotorsMatrix: the motor mixer of a multi-rotor frame

    A shallow embedding of [libraries/AP_Motors/AP_MotorsMatrix.cpp]:
    the motor registry ([add_motor_raw], [add_motor], [remove_motor],
    [remove_all_motors]), the armed mixing cycle ([output_armed]), the
    minimum output ([output_min]) and the motor test ([output_test]).

    Integers are [Z] with the wrap-around of their C type written out:
    a value stored in an [int16_t], [int8_t] or [uint8_t] is wrapped,
    while the sums and differences of a few such values, which C
    computes in [int] (32 bits), are exact.  [float] is IEEE binary32,
    taken from the standard library's [SpecFloat] at precision 24, each
    operation rounded to nearest.  The fixed-size member arrays are
    total functions on the slot index, read only below the capacity.
    What the object sends to the hardware layer (the writes to the
    output channels and the delays) is returned as a list of events. *)

From Stdlib Require Import ZArith List Bool Lia Sorted.
From Stdlib Require Import Floats.SpecFloat.
Import ListNotations.
Local Open Scope Z_scope.

(** ** Machine integers *)

Module MachInt.

(** Conversion of an [int] to a signed type of [w] bits. *)
Definition wrap_signed (w x : Z) : Z :=
  (x + 2 ^ (w - 1)) mod 2 ^ w - 2 ^ (w - 1).

Definition to_int16 (x : Z) : Z := wrap_signed 16 x.
Definition to_int8 (x : Z) : Z := wrap_signed 8 x.
Definition to_uint8 (x : Z) : Z := x mod 256.

Definition is_int16 (x : Z) : bool := (-32768 <=? x) && (x <=? 32767).

(** [clamp x lo hi], as the properties below write it. *)
Definition clamp (x lo hi : Z) : Z := Z.min (Z.max x lo) hi.

End MachInt.
Import MachInt.

(** ** Single-precision floats *)

Module F32.

Definition prec : Z := 24.
Definition emax : Z := 128.

Definition float : Set := spec_float.

Definition mul : float -> float -> float := SFmul prec emax.
Definition add : float -> float -> float := SFadd prec emax.
Definition div : float -> float -> float := SFdiv prec emax.
Definition leb : float -> float -> bool := SFleb.

(** Conversion of an integer to [float] (round to nearest even). *)
Definition of_int (z : Z) : float := binary_normalize prec emax z 0 false.

Definition zero : float := S754_zero false.
Definition one : float := of_int 1.

Definition is_zero (f : float) : bool :=
  match f with S754_zero _ => true | _ => false end.

Definition is_finite (f : float) : bool :=
  match f with S754_zero _ | S754_finite _ _ _ => true | _ => false end.

(** The integer part of a float, rounded toward zero; none for an
    infinity or a NaN. *)
Definition trunc (f : float) : option Z :=
  match f with
  | S754_zero _ => Some 0
  | S754_finite s m e =>
      let a := Z.shiftl (Zpos m) e in Some (if s then - a else a)
  | S754_infinity _ | S754_nan => None
  end.

(** A float with a full mantissa of 24 bits and an exponent between -23
    and 0: the form of the integers of 24 bits and less. *)
Definition normalized (m : positive) (e : Z) : Prop :=
  8388608 <= Zpos m < 16777216 /\ -23 <= e <= 0.

(** [of_int z] and [of_int (- z)] have that form and the value [z]. *)
Definition normal_int (z : Z) : bool :=
  match of_int z, of_int (- z) with
  | S754_finite false m e, S754_finite true m' e' =>
      (Pos.eqb m m') && (e =? e') && (8388608 <=? Zpos m)
      && (Zpos m <? 16777216)
      && (-23 <=? e) && (e <=? 0) && (Zpos m =? z * 2 ^ (- e))
  | _, _ => false
  end.

(** [c] holds of the [n] integers from [z] on. *)
Fixpoint all_from (n : nat) (z : Z) (c : Z -> bool) : bool :=
  match n with
  | O => true
  | S n => c z && all_from n (z + 1) c
  end.

End F32.

(** ** The object *)

(** The fields of an [RC_Channel] that the mixer reads or writes. *)
Record RC_Channel : Type := mkRC {
  servo_out : Z;
  pwm_out : Z;
  radio_out : Z;
  radio_min : Z;
  radio_max : Z
}.

(** [AP_Motors::limit], the saturation flags. *)
Record AP_Motors_limit : Type := mkLimit {
  roll_pitch : bool;
  yaw : bool;
  throttle : bool
}.

Record AP_MotorsMatrix : Type := mkMotors {
  motor_enabled : nat -> bool;
  _roll_factor : nat -> F32.float;
  _pitch_factor : nat -> F32.float;
  _yaw_factor : nat -> F32.float;
  _test_order : nat -> Z;
  _num_motors : Z;
  motor_out : nat -> Z;
  _motor_to_channel_map : nat -> Z;
  _rc_roll : RC_Channel;
  _rc_pitch : RC_Channel;
  _rc_throttle : RC_Channel;
  _rc_yaw : RC_Channel;
  _min_throttle : Z;
  _max_throttle : Z;
  _hover_out : Z;
  _spin_when_armed : Z;
  _throttle_curve_enabled : bool;
  limit : AP_Motors_limit
}.

(** What the object sends to the hardware layer, in order. *)
Inductive hal_event : Type :=
| rcout_write (ch pwm : Z)
| scheduler_delay (ms : Z).

(** Assignment to one element of a member array. *)
Definition upd {A : Type} (f : nat -> A) (i : nat) (v : A) : nat -> A :=
  fun j => if Nat.eqb j i then v else f j.

Definition set_motor_enabled st v :=
  mkMotors v (_roll_factor st) (_pitch_factor st) (_yaw_factor st)
    (_test_order st) (_num_motors st) (motor_out st)
    (_motor_to_channel_map st) (_rc_roll st) (_rc_pitch st)
    (_rc_throttle st) (_rc_yaw st) (_min_throttle st) (_max_throttle st)
    (_hover_out st) (_spin_when_armed st) (_throttle_curve_enabled st)
    (limit st).

Definition set_factors st r p y :=
  mkMotors (motor_enabled st) r p y
    (_test_order st) (_num_motors st) (motor_out st)
    (_motor_to_channel_map st) (_rc_roll st) (_rc_pitch st)
    (_rc_throttle st) (_rc_yaw st) (_min_throttle st) (_max_throttle st)
    (_hover_out st) (_spin_when_armed st) (_throttle_curve_enabled st)
    (limit st).

Definition set_test_order st v :=
  mkMotors (motor_enabled st) (_roll_factor st) (_pitch_factor st)
    (_yaw_factor st) v (_num_motors st) (motor_out st)
    (_motor_to_channel_map st) (_rc_roll st) (_rc_pitch st)
    (_rc_throttle st) (_rc_yaw st) (_min_throttle st) (_max_throttle st)
    (_hover_out st) (_spin_when_armed st) (_throttle_curve_enabled st)
    (limit st).

Definition set_num_motors st v :=
  mkMotors (motor_enabled st) (_roll_factor st) (_pitch_factor st)
    (_yaw_factor st) (_test_order st) v (motor_out st)
    (_motor_to_channel_map st) (_rc_roll st) (_rc_pitch st)
    (_rc_throttle st) (_rc_yaw st) (_min_throttle st) (_max_throttle st)
    (_hover_out st) (_spin_when_armed st) (_throttle_curve_enabled st)
    (limit st).

Definition set_motor_out st v :=
  mkMotors (motor_enabled st) (_roll_factor st) (_pitch_factor st)
    (_yaw_factor st) (_test_order st) (_num_motors st) v
    (_motor_to_channel_map st) (_rc_roll st) (_rc_pitch st)
    (_rc_throttle st) (_rc_yaw st) (_min_throttle st) (_max_throttle st)
    (_hover_out st) (_spin_when_armed st) (_throttle_curve_enabled st)
    (limit st).

Definition set_rc st r p t y :=
  mkMotors (motor_enabled st) (_roll_factor st) (_pitch_factor st)
    (_yaw_factor st) (_test_order st) (_num_motors st) (motor_out st)
    (_motor_to_channel_map st) r p t y
    (_min_throttle st) (_max_throttle st)
    (_hover_out st) (_spin_when_armed st) (_throttle_curve_enabled st)
    (limit st).

Definition set_spin_when_armed st v :=
  mkMotors (motor_enabled st) (_roll_factor st) (_pitch_factor st)
    (_yaw_factor st) (_test_order st) (_num_motors st) (motor_out st)
    (_motor_to_channel_map st) (_rc_roll st) (_rc_pitch st)
    (_rc_throttle st) (_rc_yaw st) (_min_throttle st) (_max_throttle st)
    (_hover_out st) v (_throttle_curve_enabled st)
    (limit st).

Definition set_limit st v :=
  mkMotors (motor_enabled st) (_roll_factor st) (_pitch_factor st)
    (_yaw_factor st) (_test_order st) (_num_motors st) (motor_out st)
    (_motor_to_channel_map st) (_rc_roll st) (_rc_pitch st)
    (_rc_throttle st) (_rc_yaw st) (_min_throttle st) (_max_throttle st)
    (_hover_out st) (_spin_when_armed st) (_throttle_curve_enabled st)
    v.

Definition set_servo_out (c : RC_Channel) (v : Z) : RC_Channel :=
  mkRC v (pwm_out c) (radio_out c) (radio_min c) (radio_max c).

(** ** What the file takes from outside

    The header [AP_MotorsMatrix.h], the base class [AP_Motors], the
    [RC_Channel] library, [AP_Math], the throttle curve and libm are not
    part of this unit.  Their constants and functions are the fields of
    [Externals]; the mixer is defined over any value of it. *)

Inductive axis : Type := Roll | Pitch | Throttle | Yaw.

Class Externals : Type := {
  (** capacity of the member arrays; the loops count slots in [int8_t] *)
  AP_MOTORS_MAX_NUM_MOTORS : nat;
  max_num_motors_range : (0 < AP_MOTORS_MAX_NUM_MOTORS <= 127)%nat;
  (** least yaw headroom, a PWM count that fits in [int16_t] *)
  AP_MOTORS_MATRIX_YAW_LOWER_LIMIT_PWM : Z;
  yaw_lower_limit_range : 0 <= AP_MOTORS_MATRIX_YAW_LOWER_LIMIT_PWM <= 32767;
  (** libm's [cosf] and the degrees-to-radians conversion *)
  cosf : F32.float -> F32.float;
  radians : F32.float -> F32.float;
  (** what [RC_Channel::calc_pwm] computes for an axis: the values it
      stores in [pwm_out] and [radio_out] *)
  rc_calc_pwm : axis -> RC_Channel -> Z * Z;
  (** [_throttle_curve.get_y] *)
  throttle_curve_get_y : Z -> Z;
  (** the integer a conversion from [float] yields where C++ leaves it
      undefined (a NaN, an infinity, a value outside the target type) *)
  float_conv_undefined : F32.float -> Z
}.

Section Model.

Context {ext : Externals}.

(** Conversion of a [float] to [int16_t]: truncation toward zero. *)
Definition float_to_int16 (f : F32.float) : Z :=
  match F32.trunc f with
  | Some z => if is_int16 z then z else to_int16 (float_conv_undefined f)
  | None => to_int16 (float_conv_undefined f)
  end.

(** Modelled from the spec: [constrain_int16] of AP_Math, which is not
    in the sources ("clamp ... into [low, high]"). *)
Definition constrain_int16 (amt low high : Z) : Z :=
  if amt <? low then low else if high <? amt then high else amt.

(** Modelled from the spec: [RC_Channel::calc_pwm], which is not in the
    sources ("an update method calc_pwm() invoked once per cycle before
    the mixer reads the axis"); it refreshes the two PWM-scale values
    and leaves the desired value and the bounds as they are. *)
Definition calc_pwm (a : axis) (c : RC_Channel) : RC_Channel :=
  let '(p, r) := rc_calc_pwm a c in
  mkRC (servo_out c) (to_int16 p) (to_int16 r) (radio_min c) (radio_max c).

(** [for( i=0; i<AP_MOTORS_MAX_NUM_MOTORS; i++ )] *)
Definition for_each_motor {S : Type} (body : S -> nat -> S) (s : S) : S :=
  fold_left body (seq 0 AP_MOTORS_MAX_NUM_MOTORS) s.

(** *** Registry *)

Definition valid_motor_num (motor_num : Z) : bool :=
  (0 <=? motor_num) && (motor_num <? Z.of_nat AP_MOTORS_MAX_NUM_MOTORS).

Definition add_motor_raw (st : AP_MotorsMatrix) (motor_num : Z)
    (roll_fac pitch_fac yaw_fac : F32.float) (testing_order : Z)
    : AP_MotorsMatrix :=
  if valid_motor_num motor_num then
    let i := Z.to_nat motor_num in
    let st :=
      if negb (motor_enabled st i) then
        set_num_motors
          (set_motor_enabled st (upd (motor_enabled st) i true))
          (to_int8 (_num_motors st + 1))
      else st in
    let st :=
      set_factors st
        (upd (_roll_factor st) i roll_fac)
        (upd (_pitch_factor st) i pitch_fac)
        (upd (_yaw_factor st) i yaw_fac) in
    set_test_order st (upd (_test_order st) i testing_order)
  else st.

Definition add_motor (st : AP_MotorsMatrix) (motor_num : Z)
    (angle_degrees yaw_factor : F32.float) (testing_order : Z)
    : AP_MotorsMatrix :=
  add_motor_raw st motor_num
    (cosf (radians (F32.add angle_degrees (F32.of_int 90))))
    (cosf (radians angle_degrees))
    yaw_factor
    testing_order.

Definition remove_motor (st : AP_MotorsMatrix) (motor_num : Z)
    : AP_MotorsMatrix :=
  if valid_motor_num motor_num then
    let i := Z.to_nat motor_num in
    let st :=
      if motor_enabled st i then
        set_num_motors st (to_int8 (_num_motors st - 1))
      else st in
    let st := set_motor_enabled st (upd (motor_enabled st) i false) in
    set_factors st
      (upd (_roll_factor st) i (F32.of_int 0))
      (upd (_pitch_factor st) i (F32.of_int 0))
      (upd (_yaw_factor st) i (F32.of_int 0))
  else st.

Definition remove_all_motors (st : AP_MotorsMatrix) : AP_MotorsMatrix :=
  let st := for_each_motor (fun st i => remove_motor st (Z.of_nat i)) st in
  set_num_motors st 0.

(** The registry invariant of the data model. *)
Definition enabled_slots (st : AP_MotorsMatrix) : list nat :=
  filter (motor_enabled st) (seq 0 AP_MOTORS_MAX_NUM_MOTORS).

Definition factors_zero (st : AP_MotorsMatrix) (i : nat) : bool :=
  F32.is_zero (_roll_factor st i) && F32.is_zero (_pitch_factor st i)
  && F32.is_zero (_yaw_factor st i).

Definition registry_inv (st : AP_MotorsMatrix) : bool :=
  (_num_motors st =? Z.of_nat (length (enabled_slots st)))
  && forallb (fun i => motor_enabled st i || factors_zero st i)
       (seq 0 AP_MOTORS_MAX_NUM_MOTORS).

(** *** output_min *)

Definition send_outputs (st : AP_MotorsMatrix) : list hal_event :=
  for_each_motor
    (fun ev i =>
       if motor_enabled st i
       then ev ++ [rcout_write (_motor_to_channel_map st i) (motor_out st i)]
       else ev)
    [].

Definition output_min (st : AP_MotorsMatrix)
    : AP_MotorsMatrix * list hal_event :=
  for_each_motor
    (fun '(st, ev) i =>
       if motor_enabled st i then
         let st :=
           set_motor_out st
             (upd (motor_out st) i (radio_min (_rc_throttle st))) in
         (st, ev ++ [rcout_write (_motor_to_channel_map st i)
                       (motor_out st i)])
       else (st, ev))
    (st, []).

(** *** output_armed *)

(** The locals [rpy_out], [rpy_low] and [rpy_high]. *)
Record rpy_locals : Type := mkRpy {
  rpy_out : nat -> Z;
  rpy_low : Z;
  rpy_high : Z
}.

(** [rpy_out[i] = v] followed by the two "record lowest / highest"
    tests. *)
Definition record_rpy (l : rpy_locals) (i : nat) (v : Z) : rpy_locals :=
  mkRpy (upd (rpy_out l) i v)
    (if v <? rpy_low l then v else rpy_low l)
    (if rpy_high l <? v then v else rpy_high l).

(** The locals computed on entry. *)
Definition entry_out_min (st : AP_MotorsMatrix) : Z :=
  to_int16 (radio_min (_rc_throttle st) + _min_throttle st).

Definition entry_out_max (st : AP_MotorsMatrix) : Z :=
  radio_max (_rc_throttle st).

Definition entry_out_mid (st : AP_MotorsMatrix) : Z :=
  to_int16 (Z.quot (entry_out_min st + entry_out_max st) 2).

(** Lines 117-123: the throttle's desired value is constrained, then
    the four axes are captured. *)
Definition capture_inputs (st : AP_MotorsMatrix) : AP_MotorsMatrix :=
  let thr :=
    set_servo_out (_rc_throttle st)
      (constrain_int16 (servo_out (_rc_throttle st)) 0 (_max_throttle st)) in
  set_rc st
    (calc_pwm Roll (_rc_roll st))
    (calc_pwm Pitch (_rc_pitch st))
    (calc_pwm Throttle thr)
    (calc_pwm Yaw (_rc_yaw st)).

(** Lines 128-133: the range check of [_spin_when_armed]. *)
Definition range_check_spin (st : AP_MotorsMatrix) : AP_MotorsMatrix :=
  let st :=
    if _spin_when_armed st <? 0 then set_spin_when_armed st 0 else st in
  if _min_throttle st <? _spin_when_armed st
  then set_spin_when_armed st (_min_throttle st)
  else st.

(** A loop that assigns [motor_out[i]] for each enabled motor, from
    the element's present value and the slot. *)
Definition assign_motor_out (value : Z -> nat -> Z)
    (st : AP_MotorsMatrix) : AP_MotorsMatrix :=
  for_each_motor
    (fun st i =>
       if motor_enabled st i
       then set_motor_out st (upd (motor_out st) i (value (motor_out st i) i))
       else st)
    st.

(** Lines 134-139. *)
Definition spin_at_minimum (st : AP_MotorsMatrix) : AP_MotorsMatrix :=
  assign_motor_out
    (fun _ _ => to_int16 (radio_min (_rc_throttle st) + _spin_when_armed st))
    st.

(** Lines 154-168: roll and pitch of each motor. *)
Definition roll_pitch_cmd (st : AP_MotorsMatrix) (i : nat) : Z :=
  float_to_int16
    (F32.add
       (F32.mul (F32.of_int (pwm_out (_rc_roll st))) (_roll_factor st i))
       (F32.mul (F32.of_int (pwm_out (_rc_pitch st))) (_pitch_factor st i))).

Definition roll_pitch_loop (st : AP_MotorsMatrix) : rpy_locals :=
  for_each_motor
    (fun l i =>
       if motor_enabled st i then record_rpy l i (roll_pitch_cmd st i) else l)
    (mkRpy (fun _ => 0) 0 0).

(** Lines 174-175. *)
Definition calc_motor_mid (l : rpy_locals) : Z :=
  to_int16 (Z.quot (rpy_low l + rpy_high l) 2).

Definition calc_out_max_range (st : AP_MotorsMatrix) (out_mid : Z)
    (l : rpy_locals) : Z :=
  let thr := radio_out (_rc_throttle st) in
  to_int16
    (Z.min (out_mid - calc_motor_mid l)
       (Z.max thr (Z.quot (thr + _hover_out st) 2))).

(** Lines 179-180: the yaw that fits into the throttle range. *)
Definition calc_yaw_allowed (out_min out_max out_max_range : Z)
    (l : rpy_locals) : Z :=
  let yaw_allowed :=
    to_int16
      (Z.min (out_max - out_max_range) (out_max_range - out_min)
       - Z.quot (rpy_high l - rpy_low l) 2) in
  to_int16 (Z.max yaw_allowed AP_MOTORS_MATRIX_YAW_LOWER_LIMIT_PWM).

(** Lines 182-197: [yaw_allowed] becomes the yaw that is output; the
    boolean tells whether [limit.yaw] was set. *)
Definition limit_yaw (yaw_allowed yaw_pwm : Z) : Z * bool :=
  if 0 <=? yaw_pwm then
    if yaw_pwm <? yaw_allowed then (yaw_pwm, false) else (yaw_allowed, true)
  else
    let yaw_allowed := to_int16 (- yaw_allowed) in
    if yaw_allowed <? yaw_pwm then (yaw_pwm, false) else (yaw_allowed, true).

(** Lines 200-214: yaw added to each motor. *)
Definition yaw_cmd (st : AP_MotorsMatrix) (yaw_allowed : Z)
    (l : rpy_locals) (i : nat) : Z :=
  float_to_int16
    (F32.add (F32.of_int (rpy_out l i))
       (F32.mul (F32.of_int yaw_allowed) (_yaw_factor st i))).

Definition yaw_loop (st : AP_MotorsMatrix) (yaw_allowed : Z)
    (l : rpy_locals) : rpy_locals :=
  for_each_motor
    (fun l i =>
       if motor_enabled st i
       then record_rpy l i (yaw_cmd st yaw_allowed l i)
       else l)
    l.

(** Lines 217-232: the throttle adjustment; the boolean tells whether
    [limit.throttle] was set. *)
Definition calc_thr_adj (st : AP_MotorsMatrix)
    (out_min out_max out_max_range : Z) (l : rpy_locals) : Z * bool :=
  let thr_adj := to_int16 (radio_out (_rc_throttle st) - out_max_range) in
  if 0 <? thr_adj then
    if out_max - (rpy_high l + out_max_range) <? thr_adj
    then (to_int16 (out_max - (rpy_high l + out_max_range)), true)
    else (thr_adj, false)
  else if thr_adj <? 0 then
    (to_int16
       (Z.max (Z.min thr_adj (out_max - (rpy_high l + out_max_range)))
              (Z.min (out_min - (rpy_low l + out_max_range)) 0)),
     false)
  else (thr_adj, false).

(** Lines 236-246: the scale of roll, pitch and yaw; the boolean tells
    whether [limit.roll_pitch] and [limit.yaw] were set. *)
Definition calc_rpy_scale (out_min out_max out_max_range thr_adj : Z)
    (l : rpy_locals) : F32.float * bool :=
  if (rpy_low l + out_max_range) + thr_adj <? out_min then
    (F32.div (F32.of_int (out_min - thr_adj - out_max_range))
             (F32.of_int (rpy_low l)),
     true)
  else if out_max <? (rpy_high l + out_max_range) + thr_adj then
    (F32.div (F32.of_int (out_max - thr_adj - out_max_range))
             (F32.of_int (rpy_high l)),
     true)
  else (F32.one, false).

(** Lines 249-254. *)
Definition mix_motor (out_max_range thr_adj : Z) (rpy_scale : F32.float)
    (l : rpy_locals) (i : nat) : Z :=
  float_to_int16
    (F32.add (F32.of_int (out_max_range + thr_adj))
       (F32.mul rpy_scale (F32.of_int (rpy_out l i)))).

(** All the locals of the general path, computed on the state the
    inputs were captured in; [yaw_headroom] is [yaw_allowed] as lines
    179-180 leave it, [yaw_allowed] as lines 182-197 leave it. *)
Record mix_locals : Type := mkMix {
  out_min : Z;
  out_max : Z;
  out_mid : Z;
  out_max_range : Z;
  yaw_headroom : Z;
  yaw_allowed : Z;
  yaw_limited : bool;
  rpy : rpy_locals;
  thr_adj : Z;
  thr_limited : bool;
  rpy_scale : F32.float;
  rpy_scaled : bool
}.

Definition mix (st : AP_MotorsMatrix) (omin omax omid : Z) : mix_locals :=
  let l := roll_pitch_loop st in
  let omr := calc_out_max_range st omid l in
  let room := calc_yaw_allowed omin omax omr l in
  let '(ya, ylim) := limit_yaw room (pwm_out (_rc_yaw st)) in
  let l := yaw_loop st ya l in
  let '(adj, tlim) := calc_thr_adj st omin omax omr l in
  let '(scale, scaled) := calc_rpy_scale omin omax omr adj l in
  mkMix omin omax omid omr room ya ylim l adj tlim scale scaled.

Definition output_armed (st : AP_MotorsMatrix)
    : AP_MotorsMatrix * list hal_event :=
  let omin := entry_out_min st in
  let omax := entry_out_max st in
  let omid := entry_out_mid st in
  let st := set_limit st (mkLimit false false false) in
  let st := capture_inputs st in
  let st :=
    if servo_out (_rc_throttle st) =? 0 then
      let st := range_check_spin st in
      let st := spin_at_minimum st in
      set_limit st (mkLimit true true true)
    else
      let st :=
        if radio_out (_rc_throttle st) <? omin
        then set_limit st (mkLimit false false true)
        else st in
      let m := mix st omin omax omid in
      let st :=
        set_limit st
          (mkLimit (rpy_scaled m)
                   (yaw_limited m || rpy_scaled m)
                   (throttle (limit st) || thr_limited m)) in
      let st :=
        assign_motor_out
          (fun _ i =>
             mix_motor (out_max_range m) (thr_adj m) (rpy_scale m) (rpy m) i)
          st in
      let st :=
        if _throttle_curve_enabled st then
          assign_motor_out
            (fun out _ => to_int16 (throttle_curve_get_y out)) st
        else st in
      assign_motor_out (fun out _ => constrain_int16 out omin omax) st in
  (st, send_outputs st).

(** The general path is taken when the constrained desired throttle is
    not zero. *)
Definition general_path (st : AP_MotorsMatrix) : bool :=
  negb (servo_out (_rc_throttle (capture_inputs st)) =? 0).

(** The locals of the general path of a cycle started in [st]. *)
Definition armed_mix (st : AP_MotorsMatrix) : mix_locals :=
  mix (capture_inputs st) (entry_out_min st) (entry_out_max st)
      (entry_out_mid st).

(** *** Derived values, for the statements below *)

(** The throttle curve, when it is enabled. *)
Definition through_curve (st : AP_MotorsMatrix) (x : Z) : Z :=
  if _throttle_curve_enabled st then to_int16 (throttle_curve_get_y x) else x.

(** The flags a general-path cycle ends with. *)
Definition general_limit (st : AP_MotorsMatrix) : AP_Motors_limit :=
  let m := armed_mix st in
  mkLimit (rpy_scaled m)
          (yaw_limited m || rpy_scaled m)
          ((radio_out (_rc_throttle (capture_inputs st)) <? entry_out_min st)
           || thr_limited m).

(** The value a general-path cycle leaves in [motor_out[i]]. *)
Definition general_out (st : AP_MotorsMatrix) (i : nat) : Z :=
  let m := armed_mix st in
  constrain_int16
    (through_curve st
       (mix_motor (out_max_range m) (thr_adj m) (rpy_scale m) (rpy m) i))
    (entry_out_min st) (entry_out_max st).

(** The lowest command is at most zero, the highest at least zero, and
    both are [int16_t] values. *)
Definition rpy_in_range (l : rpy_locals) : Prop :=
  -32768 <= rpy_low l <= 0 /\ 0 <= rpy_high l <= 32767.

(** Roll, pitch and yaw contributions that are all zero. *)
Definition zero_rpy (l : rpy_locals) : Prop :=
  rpy_low l = 0 /\ rpy_high l = 0 /\ forall j, rpy_out l j = 0.

(** The concrete scenario: four motors at 45, 135, 225 and 315
    degrees, yaw factors +1, -1, +1, -1, registered in slots 0 to 3
    with the test orders [o0] to [o3]. *)
Definition four_motors (st0 : AP_MotorsMatrix) (o0 o1 o2 o3 : Z)
    : AP_MotorsMatrix :=
  let st := add_motor st0 0 (F32.of_int 45) (F32.of_int 1) o0 in
  let st := add_motor st 1 (F32.of_int 135) (F32.of_int (-1)) o1 in
  let st := add_motor st 2 (F32.of_int 225) (F32.of_int 1) o2 in
  add_motor st 3 (F32.of_int 315) (F32.of_int (-1)) o3.

(** [cosf] yields a finite value at the eight angles of the scenario. *)
Definition cosines_finite : Prop :=
  forall d, In d [45; 135; 225; 315] ->
    F32.is_finite (cosf (radians (F32.add (F32.of_int d) (F32.of_int 90))))
    = true
    /\ F32.is_finite (cosf (radians (F32.of_int d))) = true.


(** *** output_test *)

(** Lines 294-301: the least and the greatest test order. *)
Definition find_orders (st : AP_MotorsMatrix) : Z * Z :=
  fold_left
    (fun '(min_order, max_order) i =>
       (if _test_order st i <? min_order then _test_order st i
        else min_order,
        if max_order <? _test_order st i then _test_order st i
        else max_order))
    (seq 1 (AP_MOTORS_MAX_NUM_MOTORS - 1))
    (_test_order st 0%nat, _test_order st 0%nat).

(** Lines 314-317: one motor is turned on, then off. *)
Definition spin_motor (st : AP_MotorsMatrix) (j : nat) : list hal_event :=
  [ rcout_write (_motor_to_channel_map st j)
      (radio_min (_rc_throttle st) + _min_throttle st);
    scheduler_delay 300;
    rcout_write (_motor_to_channel_map st j) (radio_min (_rc_throttle st));
    scheduler_delay 2000 ].

(** Lines 311-319: the inner loop, for the order [i]. *)
Definition spin_order (st : AP_MotorsMatrix) (i : Z) : list hal_event :=
  for_each_motor
    (fun ev j =>
       if motor_enabled st j && (_test_order st j =? i)
       then ev ++ spin_motor st j
       else ev)
    [].

(** Lines 310-320: the outer loop, whose counter [i] is a [uint8_t].
    It runs for at most [fuel] tests of its condition; the boolean
    tells whether the loop was left. *)
Fixpoint order_loop (fuel : nat) (st : AP_MotorsMatrix) (i max_order : Z)
    : list hal_event * bool :=
  match fuel with
  | O => ([], false)
  | S fuel =>
      if i <=? max_order then
        let ev := spin_order st i in
        let '(evs, exited) := order_loop fuel st (to_uint8 (i + 1)) max_order in
        (ev ++ evs, exited)
      else ([], true)
  end.

(** The events of the test seen within [fuel] tests of the outer
    loop's condition; the boolean tells whether [output_test]
    returned. *)
Definition output_test (fuel : nat) (st : AP_MotorsMatrix)
    : AP_MotorsMatrix * list hal_event * bool :=
  let '(min_order, max_order) := find_orders st in
  let '(st, ev_min) := output_min st in
  let '(ev_loop, exited) := order_loop fuel st min_order max_order in
  if exited then
    let '(st', ev_end) := output_min st in
    (st', ev_min ++ [scheduler_delay 4000] ++ ev_loop ++ ev_end, true)
  else
    (st, ev_min ++ [scheduler_delay 4000] ++ ev_loop, false).

(** The orders the outer loop goes through when it is left, the motors
    in the order it spins them, and the order the test is meant to
    follow: by test order, then by slot. *)
Definition test_orders (st : AP_MotorsMatrix) : list Z :=
  let '(min_order, max_order) := find_orders st in
  map (fun k => min_order + Z.of_nat k)
      (seq 0 (Z.to_nat (max_order + 1 - min_order))).

Definition spins_at (st : AP_MotorsMatrix) (i : Z) (j : nat) : bool :=
  motor_enabled st j && (_test_order st j =? i).

Definition firing_order (st : AP_MotorsMatrix) : list nat :=
  flat_map (fun i => filter (spins_at st i) (seq 0 AP_MOTORS_MAX_NUM_MOTORS))
           (test_orders st).

Definition fires_before (st : AP_MotorsMatrix) (a b : nat) : Prop :=
  _test_order st a < _test_order st b
  \/ (_test_order st a = _test_order st b /\ (a < b)%nat).

(** What [output_min] writes. *)
Definition min_events (st : AP_MotorsMatrix) : list hal_event :=
  map (fun i => rcout_write (_motor_to_channel_map st i)
                  (radio_min (_rc_throttle st)))
      (enabled_slots st).

End Model.

(** ** A concrete board

    Eight slots, a yaw floor of 200, channels numbered as the slots, a
    throttle range and three angle axes scaled as [RC_Channel] scales
    them, and a series for the cosine.  The runs below are made on it. *)

Module Board.

Definition deg_to_rad : F32.float :=
  F32.div (F32.of_int 17453293) (F32.of_int 1000000000).

Definition radians (deg : F32.float) : F32.float := F32.mul deg deg_to_rad.

(** The cosine by its series in Horner's form, in single precision. *)
Definition cosf (x : F32.float) : F32.float :=
  let x2 := F32.mul x x in
  fold_right
    (fun k acc =>
       SFsub F32.prec F32.emax F32.one (F32.mul (F32.div x2 (F32.of_int k)) acc))
    F32.one
    [2; 12; 30; 56; 90; 132; 182; 240; 306; 380; 462; 552; 650; 756].

Definition rc_calc_pwm (a : axis) (c : RC_Channel) : Z * Z :=
  match a with
  | Throttle =>
      let p := Z.quot (servo_out c * (radio_max c - radio_min c)) 1000 in
      (p, radio_min c + p)
  | _ =>
      let p := Z.quot (servo_out c * 500) 4500 in
      (p, Z.quot (radio_min c + radio_max c) 2 + p)
  end.

#[export] Instance ext : Externals := {
  AP_MOTORS_MAX_NUM_MOTORS := 8;
  max_num_motors_range := ltac:(lia);
  AP_MOTORS_MATRIX_YAW_LOWER_LIMIT_PWM := 200;
  yaw_lower_limit_range := ltac:(lia);
  cosf := cosf;
  radians := radians;
  rc_calc_pwm := rc_calc_pwm;
  throttle_curve_get_y := fun x => x;
  float_conv_undefined := fun _ => 0
}.

Definition channel (lo hi desired : Z) : RC_Channel :=
  mkRC desired 0 0 lo hi.

(** A freshly constructed object: nothing registered. *)
Definition blank : AP_MotorsMatrix :=
  mkMotors (fun _ => false)
    (fun _ => F32.zero) (fun _ => F32.zero) (fun _ => F32.zero)
    (fun _ => 0) 0 (fun _ => 0) (fun i => Z.of_nat i)
    (channel 1000 2000 0) (channel 1000 2000 0)
    (channel 1000 2000 0) (channel 1000 2000 0)
    100 1000 1500 0 false (mkLimit false false false).

(** The four motors of the concrete scenario. *)
Definition quad_x : AP_MotorsMatrix :=
  let st := add_motor blank 0 (F32.of_int 45) (F32.of_int 1) 1 in
  let st := add_motor st 1 (F32.of_int 135) (F32.of_int (-1)) 2 in
  let st := add_motor st 2 (F32.of_int 225) (F32.of_int 1) 3 in
  add_motor st 3 (F32.of_int 315) (F32.of_int (-1)) 4.

Definition with_commands (st : AP_MotorsMatrix) (r p t y : Z)
    : AP_MotorsMatrix :=
  set_rc st
    (set_servo_out (_rc_roll st) r) (set_servo_out (_rc_pitch st) p)
    (set_servo_out (_rc_throttle st) t) (set_servo_out (_rc_yaw st) y).

Definition with_min_throttle (st : AP_MotorsMatrix) (v : Z)
    : AP_MotorsMatrix :=
  mkMotors (motor_enabled st) (_roll_factor st) (_pitch_factor st)
    (_yaw_factor st) (_test_order st) (_num_motors st) (motor_out st)
    (_motor_to_channel_map st) (_rc_roll st) (_rc_pitch st)
    (_rc_throttle st) (_rc_yaw st) v (_max_throttle st)
    (_hover_out st) (_spin_when_armed st) (_throttle_curve_enabled st)
    (limit st).

(** Sticks centred, throttle at zero, on the four motors. *)
Definition idle : AP_MotorsMatrix := with_commands quad_x 0 0 0 0.

(** Sticks centred, throttle at mid-scale, on the four motors. *)
Definition hover : AP_MotorsMatrix := with_commands quad_x 0 0 500 0.

(** Sticks centred, throttle just above zero, [min_throttle] at 300. *)
Definition low_throttle : AP_MotorsMatrix :=
  with_min_throttle (with_commands quad_x 0 0 10 0) 300.

(** The same with a little roll asked for. *)
Definition low_throttle_roll : AP_MotorsMatrix :=
  with_min_throttle (with_commands quad_x 450 0 10 0) 300.

(** The four motors with the test orders 0, 0, 1 and 2. *)
Definition quad_orders : AP_MotorsMatrix :=
  four_motors blank 0 0 1 2.

(** The four motors, the last registered again with test order 255. *)
Definition quad_last_order : AP_MotorsMatrix :=
  add_motor quad_x 3 (F32.of_int 315) (F32.of_int (-1)) 255.

(** The number of times the "on" value of the test is written to a
    channel. *)
Definition pulses (ch : Z) (ev : list hal_event) : nat :=
  length
    (filter
       (fun e =>
          match e with
          | rcout_write c v => (c =? ch) && (v =? 1100)
          | scheduler_delay _ => false
          end)
       ev).

End Board.


(** ** Set-up, update rate and disarmed output

    [Init], [set_update_rate], [set_frame_orientation], [enable] and
    [output_disarmed].  They use two members more, [_speed_hz] and
    [_frame_orientation], and reach the hardware layer through
    [set_freq] and [enable_ch]. *)

Record AP_MotorsMatrix_setup : Type := mkSetup {
  matrix : AP_MotorsMatrix;
  _speed_hz : Z;
  _frame_orientation : Z
}.

Inductive rcout_setup_event : Type :=
| rcout_set_freq (chmask freq_hz : Z)
| rcout_enable_ch (ch : Z).

(** The base class and the frame classes are not part of this unit:
    [AP_Motors::Init], [AP_Motors::set_frame_orientation] and the
    virtual [setup_motors] are taken as they come. *)
Class FrameExternals : Type := {
  AP_Motors_Init : AP_MotorsMatrix_setup -> AP_MotorsMatrix_setup;
  AP_Motors_set_frame_orientation :
    AP_MotorsMatrix_setup -> Z -> AP_MotorsMatrix_setup;
  setup_motors : AP_MotorsMatrix_setup -> AP_MotorsMatrix_setup
}.

(** [a << n] in [uint32_t]; C++ defines it for [n] below 32 only. *)
Definition shl_uint32 (a n : Z) : Z := Z.shiftl a n mod 2 ^ 32.

Section Setup.

Context {ext : Externals} {frame : FrameExternals}.

(** Lines 38-43: one bit per channel of an enabled motor. *)
Definition channel_mask (st : AP_MotorsMatrix) : Z :=
  for_each_motor
    (fun mask i =>
       if motor_enabled st i
       then Z.lor mask (shl_uint32 1 (_motor_to_channel_map st i))
       else mask)
    0.

(** Lines 30-45; [speed_hz] is the value the [uint16_t] parameter
    holds. *)
Definition set_update_rate (o : AP_MotorsMatrix_setup) (speed_hz : Z)
    : AP_MotorsMatrix_setup * list rcout_setup_event :=
  let o := mkSetup (matrix o) speed_hz (_frame_orientation o) in
  (o, [rcout_set_freq (channel_mask (matrix o)) (_speed_hz o)]).

Definition Init (o : AP_MotorsMatrix_setup)
    : AP_MotorsMatrix_setup * list rcout_setup_event :=
  let o := AP_Motors_Init o in
  let o := setup_motors o in
  set_update_rate o (_speed_hz o).

Definition set_frame_orientation (o : AP_MotorsMatrix_setup)
    (new_orientation : Z)
    : AP_MotorsMatrix_setup * list rcout_setup_event :=
  if new_orientation =? _frame_orientation o then (o, [])
  else
    let o := AP_Motors_set_frame_orientation o new_orientation in
    let o := setup_motors o in
    set_update_rate o (_speed_hz o).

Definition enable (st : AP_MotorsMatrix) : list rcout_setup_event :=
  for_each_motor
    (fun ev i =>
       if motor_enabled st i
       then ev ++ [rcout_enable_ch (_motor_to_channel_map st i)]
       else ev)
    [].

Definition output_disarmed (st : AP_MotorsMatrix)
    : AP_MotorsMatrix * list hal_event :=
  output_min st.

(** The channels of the enabled motors, in slot order. *)
Definition enabled_channels (st : AP_MotorsMatrix) : list Z :=
  map (_motor_to_channel_map st) (enabled_slots st).

End Setup.

(** A frame class for the concrete board: the parent stores the
    orientation, [setup_motors] clears the registry and registers the
    four motors of the scenario. *)
Module Bench.
Import Board.

#[export] Instance frame : FrameExternals := {
  AP_Motors_Init := fun o => o;
  AP_Motors_set_frame_orientation :=
    fun o v => mkSetup (matrix o) (_speed_hz o) v;
  setup_motors :=
    fun o =>
      mkSetup (four_motors (remove_all_motors (matrix o)) 1 2 3 4)
        (_speed_hz o) (_frame_orientation o)
}.

Definition fresh : AP_MotorsMatrix_setup := mkSetup blank 490 0.

End Bench.

(** An [int16_t] value goes through [float] and back unchanged, also
    when a zero product is added to it: the check of one value. *)
Definition int16_through_float (z : Z) : bool :=
  match F32.trunc (F32.add (F32.of_int z) (F32.mul F32.one (F32.of_int 0))) with
  | Some z' => z' =? z
  | None => false
  end.

(** * Properties *)

(** ** Machine integers and arrays *)

Lemma to_int16_range x : -32768 <= to_int16 x <= 32767.
Proof.
  unfold to_int16, wrap_signed.
  assert (0 <= (x + 2 ^ (16 - 1)) mod 2 ^ 16 < 2 ^ 16)
    by (apply Z.mod_pos_bound; reflexivity).
  change (2 ^ 16) with 65536 in *. change (2 ^ (16 - 1)) with 32768 in *. lia.
Qed.

Lemma to_int16_id x : -32768 <= x <= 32767 -> to_int16 x = x.
Proof.
  intros H. unfold to_int16, wrap_signed.
  change (2 ^ 16) with 65536. change (2 ^ (16 - 1)) with 32768.
  rewrite Z.mod_small; lia.
Qed.

Lemma to_int8_id x : -128 <= x <= 127 -> to_int8 x = x.
Proof.
  intros H. unfold to_int8, wrap_signed.
  change (2 ^ 8) with 256. change (2 ^ (8 - 1)) with 128.
  rewrite Z.mod_small; lia.
Qed.

Lemma to_uint8_id x : 0 <= x <= 255 -> to_uint8 x = x.
Proof. intros H. unfold to_uint8. apply Z.mod_small. lia. Qed.

Lemma is_int16_spec x : is_int16 x = true <-> -32768 <= x <= 32767.
Proof. unfold is_int16. rewrite andb_true_iff, !Z.leb_le. tauto. Qed.

Lemma upd_same {A} (f : nat -> A) i v : upd f i v i = v.
Proof. unfold upd. now rewrite Nat.eqb_refl. Qed.

Lemma upd_other {A} (f : nat -> A) i j v : j <> i -> upd f i v j = f j.
Proof. unfold upd. intros H. apply Nat.eqb_neq in H. now rewrite H. Qed.

(** Counting the [true] entries of a flag array after one assignment. *)
Lemma filter_upd_notin (f : nat -> bool) i b l :
  ~ In i l -> filter (upd f i b) l = filter f l.
Proof.
  intros H. apply filter_ext_in. intros j Hj.
  apply upd_other. intros ->. contradiction.
Qed.

Lemma count_upd_true (f : nat -> bool) i l :
  NoDup l -> In i l -> f i = false ->
  length (filter (upd f i true) l) = S (length (filter f l)).
Proof.
  induction 1 as [|a l Ha Hl IH]; intros Hin Hf; [destruct Hin|].
  cbn [filter]. destruct (Nat.eq_dec a i) as [->|Hne].
  - rewrite upd_same, Hf, filter_upd_notin by assumption. reflexivity.
  - rewrite upd_other by assumption.
    destruct Hin as [->|Hin]; [congruence|].
    destruct (f a); cbn [length]; rewrite IH by assumption; reflexivity.
Qed.

Lemma count_upd_false (f : nat -> bool) i l :
  NoDup l -> In i l -> f i = true ->
  S (length (filter (upd f i false) l)) = length (filter f l).
Proof.
  induction 1 as [|a l Ha Hl IH]; intros Hin Hf; [destruct Hin|].
  cbn [filter]. destruct (Nat.eq_dec a i) as [->|Hne].
  - rewrite upd_same, Hf, filter_upd_notin by assumption. reflexivity.
  - rewrite upd_other by assumption.
    destruct Hin as [->|Hin]; [congruence|].
    destruct (f a); cbn [length]; rewrite <- IH by assumption; reflexivity.
Qed.

Lemma filter_upd_idem (f : nat -> bool) i l :
  filter (upd f i (f i)) l = filter f l.
Proof.
  apply filter_ext. intros j. unfold upd.
  destruct (Nat.eqb_spec j i); congruence.
Qed.

Lemma filter_length_le {A} (f : A -> bool) l :
  (length (filter f l) <= length l)%nat.
Proof.
  induction l as [|a l IH]; cbn; [lia|]. destruct (f a); cbn; lia.
Qed.

Lemma filter_none {A} (f : A -> bool) l :
  (forall x, In x l -> f x = false) -> filter f l = [].
Proof.
  induction l as [|a l IH]; intros H; [reflexivity|].
  cbn. rewrite (H a (or_introl eq_refl)). apply IH.
  intros x Hx. apply H. now right.
Qed.

Section Registry.

Context {ext : Externals}.

Local Abbreviation MAX := AP_MOTORS_MAX_NUM_MOTORS.

Lemma valid_motor_num_spec n :
  valid_motor_num n = true <-> 0 <= n < Z.of_nat MAX.
Proof.
  unfold valid_motor_num. rewrite andb_true_iff, Z.leb_le, Z.ltb_lt. tauto.
Qed.

Lemma valid_motor_num_slot n :
  valid_motor_num n = true -> In (Z.to_nat n) (seq 0 MAX).
Proof. rewrite valid_motor_num_spec, in_seq. lia. Qed.

(** The invariant, read as a proposition. *)
Lemma registry_inv_spec st :
  registry_inv st = true <->
  _num_motors st = Z.of_nat (length (enabled_slots st))
  /\ forall i, (i < MAX)%nat -> motor_enabled st i = false ->
               factors_zero st i = true.
Proof.
  unfold registry_inv. rewrite andb_true_iff, Z.eqb_eq, forallb_forall.
  split; intros [Hn Hz]; split; trivial.
  - intros i Hi Hd. specialize (Hz i). rewrite in_seq, Hd in Hz.
    apply Hz. lia.
  - intros i Hi. apply in_seq in Hi.
    destruct (motor_enabled st i) eqn:He; [reflexivity|].
    apply Hz; [lia|assumption].
Qed.

Lemma enabled_slots_bound st : (length (enabled_slots st) <= MAX)%nat.
Proof.
  unfold enabled_slots.
  etransitivity; [apply filter_length_le|]. now rewrite length_seq.
Qed.

Lemma add_motor_raw_inv st n r p y o :
  registry_inv st = true -> registry_inv (add_motor_raw st n r p y o) = true.
Proof.
  intros Hinv. unfold add_motor_raw.
  destruct (valid_motor_num n) eqn:Hv; [|assumption].
  pose proof (valid_motor_num_slot n Hv) as Hin.
  pose proof max_num_motors_range as Hmax.
  apply registry_inv_spec in Hinv. destruct Hinv as [Hn Hz].
  apply registry_inv_spec.
  destruct (motor_enabled st (Z.to_nat n)) eqn:He; cbn.
  - split; [exact Hn|].
    intros i Hi Hd. unfold factors_zero; cbn.
    assert (i <> Z.to_nat n) by congruence.
    rewrite !upd_other by assumption. now apply Hz.
  - unfold enabled_slots in *; cbn.
    pose proof (count_upd_true (motor_enabled st) (Z.to_nat n) (seq 0 MAX)
                  (seq_NoDup _ _) Hin He) as Hc.
    pose proof (filter_length_le (upd (motor_enabled st) (Z.to_nat n) true)
                  (seq 0 MAX)) as Hle.
    rewrite length_seq in Hle.
    split.
    + rewrite Hc, Hn, to_int8_id; lia.
    + intros i Hi Hd. unfold factors_zero; cbn.
      assert (i <> Z.to_nat n).
      { intros ->. rewrite upd_same in Hd. discriminate. }
      rewrite !upd_other in * by assumption. now apply Hz.
Qed.

Lemma remove_motor_inv st n :
  registry_inv st = true -> registry_inv (remove_motor st n) = true.
Proof.
  intros Hinv. unfold remove_motor.
  destruct (valid_motor_num n) eqn:Hv; [|assumption].
  pose proof (valid_motor_num_slot n Hv) as Hin.
  pose proof max_num_motors_range as Hmax.
  pose proof (enabled_slots_bound st) as Hb.
  apply registry_inv_spec in Hinv. destruct Hinv as [Hn Hz].
  apply registry_inv_spec.
  assert (Hfz : forall st' i,
             (forall j, j <> Z.to_nat n -> factors_zero st' j = factors_zero st j) ->
             factors_zero st' (Z.to_nat n) = true ->
             (i < MAX)%nat ->
             upd (motor_enabled st) (Z.to_nat n) false i = false ->
             factors_zero st' i = true).
  { intros st' i Hoth Hsame Hi Hd.
    destruct (Nat.eq_dec i (Z.to_nat n)) as [->|Hne]; [assumption|].
    rewrite Hoth by assumption. rewrite upd_other in Hd by assumption.
    now apply Hz. }
  destruct (motor_enabled st (Z.to_nat n)) eqn:He; cbn.
  - unfold enabled_slots in *; cbn.
    pose proof (count_upd_false (motor_enabled st) (Z.to_nat n) (seq 0 MAX)
                  (seq_NoDup _ _) Hin He) as Hc.
    split.
    + rewrite Hn, to_int8_id; lia.
    + intros i. apply Hfz.
      * intros j Hj. unfold factors_zero; cbn. now rewrite !upd_other.
      * unfold factors_zero; cbn. now rewrite !upd_same.
  - unfold enabled_slots in *; cbn. split.
    + rewrite <- He at 1. now rewrite filter_upd_idem.
    + intros i. apply Hfz.
      * intros j Hj. unfold factors_zero; cbn. now rewrite !upd_other.
      * unfold factors_zero; cbn. now rewrite !upd_same.
Qed.

Lemma remove_motor_enabled st n j :
  valid_motor_num n = true ->
  motor_enabled (remove_motor st n) j
  = upd (motor_enabled st) (Z.to_nat n) false j.
Proof.
  intros Hv. unfold remove_motor. rewrite Hv.
  destruct (motor_enabled st (Z.to_nat n)); reflexivity.
Qed.

Lemma remove_motor_factors_here st n :
  valid_motor_num n = true ->
  factors_zero (remove_motor st n) (Z.to_nat n) = true.
Proof.
  intros Hv. unfold remove_motor. rewrite Hv.
  destruct (motor_enabled st (Z.to_nat n));
    unfold factors_zero; cbn; now rewrite !upd_same.
Qed.

Lemma remove_motor_factors_other st n j :
  j <> Z.to_nat n ->
  factors_zero (remove_motor st n) j = factors_zero st j.
Proof.
  intros Hj. unfold remove_motor.
  destruct (valid_motor_num n); [|reflexivity].
  destruct (motor_enabled st (Z.to_nat n));
    unfold factors_zero; cbn; now rewrite !upd_other.
Qed.

(** After the first [k] rounds of the loop of [remove_all_motors], the
    first [k] slots are disabled and their factors are zero. *)
Lemma remove_loop_prefix st k :
  (k <= MAX)%nat ->
  let st' := fold_left (fun st i => remove_motor st (Z.of_nat i)) (seq 0 k) st in
  forall j, (j < k)%nat ->
            motor_enabled st' j = false /\ factors_zero st' j = true.
Proof.
  induction k as [|k IH]; intros Hk st' j Hj; [lia|].
  subst st'. rewrite seq_S, fold_left_app. cbn [fold_left Nat.add].
  set (st1 := fold_left _ (seq 0 k) st) in *.
  assert (Hv : valid_motor_num (Z.of_nat k) = true)
    by (apply valid_motor_num_spec; lia).
  rewrite remove_motor_enabled by assumption. rewrite Nat2Z.id.
  destruct (Nat.eq_dec j k) as [->|Hne].
  - rewrite upd_same. split; [reflexivity|].
    rewrite <- (Nat2Z.id k) at 2. now apply remove_motor_factors_here.
  - rewrite upd_other by assumption.
    rewrite remove_motor_factors_other by (rewrite Nat2Z.id; assumption).
    apply IH; lia.
Qed.

Lemma remove_all_motors_inv st : registry_inv (remove_all_motors st) = true.
Proof.
  unfold remove_all_motors, for_each_motor.
  pose proof (remove_loop_prefix st MAX (le_n _)) as H. cbv zeta in H.
  set (st1 := fold_left _ _ st) in *.
  apply registry_inv_spec. unfold enabled_slots, factors_zero in *. cbn.
  split.
  - rewrite filter_none; [reflexivity|].
    intros i Hi. apply in_seq in Hi. apply H. lia.
  - intros i Hi _. now apply H.
Qed.

(** C7.  The registry invariant (the number of enabled slots equals
    [_num_motors], and the three factors of every disabled slot are
    zero) holds after [add_motor_raw], [add_motor], [remove_motor] and
    [remove_all_motors] whenever it held before the call. *)
Theorem registry_invariant_preserved st :
  registry_inv st = true ->
  (forall n r p y o, registry_inv (add_motor_raw st n r p y o) = true)
  /\ (forall n a y o, registry_inv (add_motor st n a y o) = true)
  /\ (forall n, registry_inv (remove_motor st n) = true)
  /\ registry_inv (remove_all_motors st) = true.
Proof.
  intros Hinv. repeat split; intros.
  - now apply add_motor_raw_inv.
  - unfold add_motor. now apply add_motor_raw_inv.
  - now apply remove_motor_inv.
  - apply remove_all_motors_inv.
Qed.

(** C8.  A slot index outside [0, capacity) leaves the whole object as
    it was, in [add_motor_raw] and in [remove_motor]; both return
    nothing but the object, so nothing is reported. *)
Theorem invalid_slot_is_ignored st n r p y o :
  n < 0 \/ Z.of_nat MAX <= n ->
  add_motor_raw st n r p y o = st /\ remove_motor st n = st.
Proof.
  intros Hn. unfold add_motor_raw, remove_motor.
  assert (Hv : valid_motor_num n = false).
  { destruct (valid_motor_num n) eqn:E; [|reflexivity].
    apply valid_motor_num_spec in E. lia. }
  rewrite Hv. split; reflexivity.
Qed.

End Registry.

Module RegistryRuns.
Import Board.

Lemma registry_invariant_preserved_witness :
  registry_inv quad_x = true
  /\ ((forall n r p y o, registry_inv (add_motor_raw quad_x n r p y o) = true)
      /\ (forall n a y o, registry_inv (add_motor quad_x n a y o) = true)
      /\ (forall n, registry_inv (remove_motor quad_x n) = true)
      /\ registry_inv (remove_all_motors quad_x) = true).
Proof.
  split; [vm_compute; reflexivity|].
  apply (registry_invariant_preserved quad_x). vm_compute; reflexivity.
Defined.

Lemma invalid_slot_is_ignored_witness :
  add_motor_raw quad_x 8 F32.one F32.one F32.one 5 = quad_x
  /\ remove_motor quad_x 8 = quad_x.
Proof.
  apply (invalid_slot_is_ignored quad_x 8 F32.one F32.one F32.one 5).
  right. vm_compute. discriminate.
Defined.

End RegistryRuns.

(** ** The loops over the motors *)

Lemma fold_left_collect {A B} (c : A -> bool) (g : A -> list B) l acc :
  fold_left (fun ev i => if c i then ev ++ g i else ev) l acc
  = acc ++ flat_map (fun i => if c i then g i else []) l.
Proof.
  revert acc. induction l as [|a l IH]; intros acc; cbn.
  - now rewrite app_nil_r.
  - rewrite IH. destruct (c a); [now rewrite app_assoc|reflexivity].
Qed.

Lemma flat_map_filter_single {A B} (c : A -> bool) (g : A -> B) l :
  flat_map (fun i => if c i then [g i] else []) l = map g (filter c l).
Proof.
  induction l as [|a l IH]; cbn; [reflexivity|].
  destruct (c a); cbn; now rewrite IH.
Qed.

Lemma ltb_S j k : (j <? S k)%nat = (j <? k)%nat || (j =? k)%nat.
Proof.
  destruct (Nat.ltb_spec j (S k)), (Nat.ltb_spec j k), (Nat.eqb_spec j k);
    trivial; lia.
Qed.

Section Loops.

Context {ext : Externals}.

Local Abbreviation MAX := AP_MOTORS_MAX_NUM_MOTORS.

Lemma for_each_motor_ind {S} (P : S -> Prop) (body : S -> nat -> S) s :
  P s ->
  (forall s i, (i < MAX)%nat -> P s -> P (body s i)) ->
  P (for_each_motor body s).
Proof.
  intros H0 Hstep. unfold for_each_motor.
  assert (G : forall k, (k <= MAX)%nat -> P (fold_left body (seq 0 k) s)).
  { induction k as [|k IH]; intros Hk; [exact H0|].
    rewrite seq_S, fold_left_app. cbn. apply Hstep; [lia|]. apply IH. lia. }
  apply G. lia.
Qed.

Lemma set_motor_out_id st : set_motor_out st (motor_out st) = st.
Proof. now destruct st. Qed.

(** An assignment loop changes [motor_out] only, and there the
    elements of the enabled slots only. *)
Lemma assign_motor_out_spec value st :
  exists f,
    assign_motor_out value st = set_motor_out st f
    /\ forall j, f j = if (j <? MAX)%nat && motor_enabled st j
                       then value (motor_out st j) j
                       else motor_out st j.
Proof.
  unfold assign_motor_out, for_each_motor.
  assert (G : forall k, (k <= MAX)%nat ->
            exists f,
              fold_left
                (fun st i =>
                   if motor_enabled st i
                   then set_motor_out st
                          (upd (motor_out st) i (value (motor_out st i) i))
                   else st) (seq 0 k) st = set_motor_out st f
              /\ forall j, f j = if (j <? k)%nat && motor_enabled st j
                                 then value (motor_out st j) j
                                 else motor_out st j).
  { induction k as [|k IH]; intros Hk.
    - exists (motor_out st). split; [now rewrite set_motor_out_id|].
      intros j. reflexivity.
    - destruct IH as [f [Hf Hj]]; [lia|].
      rewrite seq_S, fold_left_app, Hf.
      cbn [fold_left Nat.add motor_enabled motor_out set_motor_out].
      destruct (motor_enabled st k) eqn:He.
      + exists (upd f k (value (f k) k)). split; [reflexivity|].
        intros j. unfold upd. rewrite ltb_S, !Hj.
        destruct (Nat.eqb_spec j k) as [->|Hne].
        * rewrite Nat.ltb_irrefl, He. reflexivity.
        * rewrite orb_false_r. reflexivity.
      + exists f. split; [reflexivity|].
        intros j. rewrite ltb_S, Hj.
        destruct (Nat.eqb_spec j k) as [->|Hne].
        * rewrite He, !andb_false_r. reflexivity.
        * rewrite orb_false_r. reflexivity. }
  destruct (G MAX (le_n _)) as [f [Hf Hj]]. exists f. split; assumption.
Qed.

Lemma send_outputs_spec st :
  send_outputs st
  = map (fun i => rcout_write (_motor_to_channel_map st i) (motor_out st i))
        (enabled_slots st).
Proof.
  unfold send_outputs, for_each_motor, enabled_slots.
  rewrite (fold_left_collect (motor_enabled st)
             (fun i => [rcout_write (_motor_to_channel_map st i)
                          (motor_out st i)])).
  cbn. apply flat_map_filter_single.
Qed.

Lemma enabled_slots_spec st i :
  In i (enabled_slots st) <-> (i < MAX)%nat /\ motor_enabled st i = true.
Proof. unfold enabled_slots. rewrite filter_In, in_seq. intuition lia. Qed.

End Loops.

(** ** The zero-throttle path *)

Section ZeroThrottle.

Context {ext : Externals}.

Local Abbreviation MAX := AP_MOTORS_MAX_NUM_MOTORS.

Lemma calc_pwm_keeps a c :
  servo_out (calc_pwm a c) = servo_out c
  /\ radio_min (calc_pwm a c) = radio_min c
  /\ radio_max (calc_pwm a c) = radio_max c.
Proof. unfold calc_pwm. destruct (rc_calc_pwm a c). now cbn. Qed.

Lemma capture_inputs_servo_out st :
  servo_out (_rc_throttle (capture_inputs st))
  = constrain_int16 (servo_out (_rc_throttle st)) 0 (_max_throttle st).
Proof. unfold capture_inputs. cbn. now rewrite (proj1 (calc_pwm_keeps _ _)). Qed.

Lemma capture_inputs_radio_min st :
  radio_min (_rc_throttle (capture_inputs st)) = radio_min (_rc_throttle st).
Proof.
  unfold capture_inputs. cbn.
  now rewrite (proj1 (proj2 (calc_pwm_keeps _ _))).
Qed.

Lemma range_check_spin_spec st :
  range_check_spin st
  = set_spin_when_armed st (clamp (_spin_when_armed st) 0 (_min_throttle st)).
Proof.
  unfold range_check_spin, clamp, set_spin_when_armed.
  destruct st; cbn -[Z.min Z.max Z.ltb].
  destruct (Z.ltb_spec _spin_when_armed0 0); cbn -[Z.min Z.max Z.ltb];
    match goal with |- context [?a <? ?b] => destruct (Z.ltb_spec a b) end;
    cbn -[Z.min Z.max Z.ltb]; f_equal; lia.
Qed.

(** The state in which a zero-throttle cycle ends. *)
Lemma output_armed_zero st :
  constrain_int16 (servo_out (_rc_throttle st)) 0 (_max_throttle st) = 0 ->
  exists f,
    fst (output_armed st)
    = set_limit
        (set_motor_out
           (range_check_spin
              (capture_inputs (set_limit st (mkLimit false false false))))
           f)
        (mkLimit true true true)
    /\ snd (output_armed st) = send_outputs (fst (output_armed st))
    /\ forall j,
         f j = if (j <? MAX)%nat && motor_enabled st j
               then to_int16
                      (radio_min (_rc_throttle st)
                       + clamp (_spin_when_armed st) 0 (_min_throttle st))
               else motor_out st j.
Proof.
  intros Hz. unfold output_armed.
  set (st1 := capture_inputs (set_limit st (mkLimit false false false))).
  assert (E : (servo_out (_rc_throttle st1) =? 0) = true).
  { apply Z.eqb_eq. subst st1. now rewrite capture_inputs_servo_out. }
  rewrite E. cbn [fst snd]. unfold spin_at_minimum.
  destruct (assign_motor_out_spec
              (fun _ _ =>
                 to_int16 (radio_min (_rc_throttle (range_check_spin st1))
                           + _spin_when_armed (range_check_spin st1)))
              (range_check_spin st1)) as [f [Hf Hj]].
  exists f. rewrite Hf. repeat split.
  intros j. rewrite Hj, range_check_spin_spec. cbn.
  subst st1. rewrite (proj1 (proj2 (calc_pwm_keeps _ _))). reflexivity.
Qed.

(** What a zero-throttle cycle leaves and sends. *)
Lemma zero_path_outputs st :
  constrain_int16 (servo_out (_rc_throttle st)) 0 (_max_throttle st) = 0 ->
  let out :=
    to_int16 (radio_min (_rc_throttle st)
              + clamp (_spin_when_armed st) 0 (_min_throttle st)) in
  (forall i, (i < MAX)%nat -> motor_enabled st i = true ->
             motor_out (fst (output_armed st)) i = out)
  /\ snd (output_armed st)
     = map (fun i => rcout_write (_motor_to_channel_map st i) out)
           (enabled_slots st).
Proof.
  intros Hz out.
  destruct (output_armed_zero st Hz) as [f [Hst [Hev Hf]]].
  assert (Hout : forall i, (i < MAX)%nat -> motor_enabled st i = true ->
                           f i = out).
  { intros i Hi He. rewrite Hf, He.
    rewrite (proj2 (Nat.ltb_lt i MAX) Hi). reflexivity. }
  split.
  - intros i Hi He. rewrite Hst. cbn. now apply Hout.
  - rewrite Hev, send_outputs_spec, Hst, range_check_spin_spec.
    unfold enabled_slots. cbn.
    apply map_ext_in. intros i Hi.
    apply filter_In in Hi. destruct Hi as [Hi He]. apply in_seq in Hi.
    rewrite Hout by (trivial; lia). reflexivity.
Qed.

(** C1.  When the throttle's desired value, constrained to
    [0, max_throttle], is zero, every enabled motor is set to
    [radio_min + clamp(spin_when_armed, 0, min_throttle)] (the sum
    being the [int16_t] the code stores), that value is what is written
    for each of them, and the three saturation flags are true when the
    cycle ends. *)
Theorem zero_throttle_cuts_motors st :
  constrain_int16 (servo_out (_rc_throttle st)) 0 (_max_throttle st) = 0 ->
  let out :=
    to_int16 (radio_min (_rc_throttle st)
              + clamp (_spin_when_armed st) 0 (_min_throttle st)) in
  (forall i, (i < MAX)%nat -> motor_enabled st i = true ->
             motor_out (fst (output_armed st)) i = out)
  /\ snd (output_armed st)
     = map (fun i => rcout_write (_motor_to_channel_map st i) out)
           (enabled_slots st)
  /\ limit (fst (output_armed st)) = mkLimit true true true.
Proof.
  intros Hz out.
  destruct (zero_path_outputs st Hz) as [Hm Hev].
  split; [exact Hm|]. split; [exact Hev|].
  destruct (output_armed_zero st Hz) as [f [Hst _]].
  rewrite Hst. reflexivity.
Qed.

(** C10.  In the zero-throttle branch the stored [_spin_when_armed] is
    overwritten with its value clamped into [0, min_throttle]: the
    object the cycle returns, which every later reader sees, holds the
    clamped value, and a second zero-throttle cycle finds it there. *)
Theorem zero_throttle_rewrites_spin_when_armed st :
  constrain_int16 (servo_out (_rc_throttle st)) 0 (_max_throttle st) = 0 ->
  _spin_when_armed (fst (output_armed st))
  = clamp (_spin_when_armed st) 0 (_min_throttle st)
  /\ _min_throttle (fst (output_armed st)) = _min_throttle st.
Proof.
  intros Hz.
  destruct (output_armed_zero st Hz) as [f [Hst _]].
  rewrite Hst, range_check_spin_spec. split; reflexivity.
Qed.

End ZeroThrottle.

(** ** Division in single precision

    The quotient of two small integers whose exact quotient is below
    one is at most one after rounding. *)

Lemma digits2_pos_bounds p :
  2 ^ (Zpos (digits2_pos p) - 1) <= Zpos p < 2 ^ Zpos (digits2_pos p).
Proof.
  induction p as [p IH|p IH|]; cbn [digits2_pos].
  - rewrite Pos2Z.inj_succ.
    replace (Z.succ (Zpos (digits2_pos p)) - 1)
      with (Z.succ (Zpos (digits2_pos p) - 1)) by lia.
    rewrite !Z.pow_succ_r by lia. lia.
  - rewrite Pos2Z.inj_succ.
    replace (Z.succ (Zpos (digits2_pos p)) - 1)
      with (Z.succ (Zpos (digits2_pos p) - 1)) by lia.
    rewrite !Z.pow_succ_r by lia. lia.
  - cbn. lia.
Qed.

Lemma digits2_pos_unique p k :
  2 ^ (k - 1) <= Zpos p < 2 ^ k -> 1 <= k -> Zpos (digits2_pos p) = k.
Proof.
  intros [H1 H2] Hk. pose proof (digits2_pos_bounds p) as [B1 B2].
  set (d := Zpos (digits2_pos p)) in *.
  assert (Hd : 1 <= d) by (subst d; lia).
  destruct (Z.lt_trichotomy d k) as [Hlt|[Heq|Hgt]]; [|assumption|].
  - assert (2 ^ d <= 2 ^ (k - 1)) by (apply Z.pow_le_mono_r; lia). lia.
  - assert (2 ^ k <= 2 ^ (d - 1)) by (apply Z.pow_le_mono_r; lia). lia.
Qed.

(** The integers from 1 to 98304, which cover every numerator and
    divisor of the mixer, and their opposites, are [normalized] floats
    of the same value: checked one by one. *)
Lemma all_from_spec c n : forall z0,
  F32.all_from n z0 c = true -> forall z, z0 <= z < z0 + Z.of_nat n -> c z = true.
Proof.
  induction n as [|n IH]; intros z0 H z Hz; [lia|].
  cbn [F32.all_from] in H. apply andb_true_iff in H. destruct H as [H1 H2].
  destruct (Z.eq_dec z z0) as [->|Hne]; [assumption|].
  apply (IH (z0 + 1)); [assumption|lia].
Qed.

Lemma normal_ints : F32.all_from (Z.to_nat 98304) 1 F32.normal_int = true.
Proof. vm_compute. reflexivity. Qed.

Lemma shr_record_of_loc_m m l : shr_m (shr_record_of_loc m l) = m.
Proof. destruct l as [|[]]; reflexivity. Qed.

Lemma round_nearest_even_range m l :
  round_nearest_even m l = m \/ round_nearest_even m l = m + 1.
Proof.
  destruct l as [|[]]; cbn; auto. destruct (Z.even m); auto.
Qed.

Lemma shr_1_m m r s :
  0 < m -> shr_m (shr_1 (Build_shr_record m r s)) = m / 2.
Proof.
  intros Hm. destruct m as [|p|p]; try lia.
  destruct p as [p|p|]; cbn [shr_1 shr_m].
  - rewrite Pos2Z.inj_xI. apply Z.div_unique with (r := 1); lia.
  - rewrite Pos2Z.inj_xO. apply Z.div_unique with (r := 0); lia.
  - reflexivity.
Qed.

Lemma Zdigits2_unique m k :
  2 ^ (k - 1) <= m < 2 ^ k -> 1 <= k -> Zdigits2 m = k.
Proof.
  intros H Hk. assert (0 < m) by (pose proof (Z.pow_pos_nonneg 2 (k - 1)); lia).
  destruct m as [|p|p]; try lia. cbn. now apply digits2_pos_unique.
Qed.

(** The last step of rounding: a mantissa of 24 digits is kept, the
    mantissa 2^24 is halved and the exponent raised by one. *)
Lemma round_aux_final s mr e1 :
  8388608 <= mr <= 16777216 -> -149 <= e1 <= 103 ->
  exists m e2,
    (let '(mrs, e) := shr_fexp F32.prec F32.emax mr e1 loc_Exact in
     match shr_m mrs with
     | Z0 => S754_zero s
     | Zpos m => if e <=? F32.emax - F32.prec then S754_finite s m e else S754_infinity s
     | Zneg _ => S754_nan
     end) = S754_finite s m e2
    /\ (e2 = e1 \/ (e2 = e1 + 1 /\ m = 8388608%positive)).
Proof.
  intros Hm He. unfold shr_fexp, fexp, emin, F32.prec, F32.emax.
  destruct (Z.eq_dec mr 16777216) as [->|Hne].
  - change (Zdigits2 16777216) with 25.
    replace (Z.max (25 + e1 - 24) (3 - 128 - 24) - e1) with 1 by lia.
    cbn. exists 8388608%positive, (e1 + 1).
    destruct (Z.leb_spec (e1 + 1) 104); [|lia]. auto.
  - rewrite (Zdigits2_unique mr 24) by (cbn; lia).
    replace (Z.max (24 + e1 - 24) (3 - 128 - 24) - e1) with 0 by lia.
    cbn. destruct mr as [|p|p]; try lia.
    exists p, e1. destruct (Z.leb_spec e1 104); [|lia]. auto.
Qed.

(** Rounding a mantissa of 24 or 25 digits yields a finite float whose
    exponent is raised by at most two. *)
Lemma round_aux_shape s q e l :
  8388608 <= q < 33554432 -> -149 <= e <= 100 ->
  exists m e2,
    binary_round_aux F32.prec F32.emax s q e l = S754_finite s m e2
    /\ let base := e + (if q <? 16777216 then 0 else 1) in
       (e2 = base \/ (e2 = base + 1 /\ m = 8388608%positive)).
Proof.
  intros Hq He. unfold binary_round_aux.
  destruct (Z.ltb_spec q 16777216) as [Hlt|Hge].
  - unfold shr_fexp at 1, fexp, emin, F32.prec, F32.emax.
    rewrite (Zdigits2_unique q 24) by (cbn; lia).
    replace (Z.max (24 + e - 24) (3 - 128 - 24) - e) with 0 by lia.
    cbn [shr]. rewrite shr_record_of_loc_m.
    set (mr := round_nearest_even q _).
    assert (Hmr : 8388608 <= mr <= 16777216).
    { subst mr. destruct (round_nearest_even_range q
        (loc_of_shr_record (shr_record_of_loc q l))) as [-> | ->]; lia. }
    destruct (round_aux_final s mr e Hmr ltac:(lia)) as [m [e2 [E H]]].
    exists m, e2. split; [exact E|]. cbn. rewrite Z.add_0_r. exact H.
  - unfold shr_fexp at 1, fexp, emin, F32.prec, F32.emax.
    rewrite (Zdigits2_unique q 25) by (cbn; lia).
    replace (Z.max (25 + e - 24) (3 - 128 - 24) - e) with 1 by lia.
    cbn [shr iter_pos].
    assert (Hm1 : shr_m (shr_1 (shr_record_of_loc q l)) = q / 2).
    { destruct l as [|[]]; cbn [shr_record_of_loc]; apply shr_1_m; lia. }
    set (mrs1 := shr_1 (shr_record_of_loc q l)) in *.
    set (mr := round_nearest_even (shr_m mrs1) _).
    assert (Hmr : 8388608 <= mr <= 16777216).
    { subst mr. destruct (round_nearest_even_range (shr_m mrs1)
        (loc_of_shr_record mrs1)) as [-> | ->]; rewrite Hm1;
        pose proof (Z.div_le_lower_bound q 2 8388608);
        pose proof (Z.div_lt_upper_bound q 2 16777216); lia. }
    destruct (round_aux_final s mr (e + 1) Hmr ltac:(lia)) as [m [e2 [E H]]].
    exists m, e2. split; [exact E|]. exact H.
Qed.

(** The quotient of two normalized floats. *)
Lemma div_shape sx sy mx ex my ey :
  F32.normalized mx ex -> F32.normalized my ey ->
  exists m e2,
    F32.div (S754_finite sx mx ex) (S754_finite sy my ey)
    = S754_finite (xorb sx sy) m e2
    /\ let base := ex - ey - 24 + (if Zpos mx <? Zpos my then 0 else 1) in
       (e2 = base \/ (e2 = base + 1 /\ m = 8388608%positive)).
Proof.
  intros [Hx Hex] [Hy Hey]. unfold F32.div, SFdiv, SFdiv_core_binary.
  cbn [Zdigits2].
  rewrite (digits2_pos_unique mx 24), (digits2_pos_unique my 24) by (cbn; lia).
  unfold fexp, emin, F32.prec, F32.emax.
  replace (Z.min (Z.max (24 + ex - (24 + ey) - 24) (3 - 128 - 24)) (ex - ey))
    with (ex - ey - 24) by lia.
  replace (ex - ey - (ex - ey - 24)) with 24 by lia.
  cbv iota.
  rewrite Z.shiftl_mul_pow2 by lia. change (2 ^ 24) with 16777216.
  pose proof (Z_div_mod (Zpos mx * 16777216) (Zpos my) ltac:(lia)) as Hdiv.
  destruct (Z.div_eucl (Zpos mx * 16777216) (Zpos my)) as [q r].
  destruct Hdiv as [Hq Hr].
  assert (Hqb : 8388608 <= q < 33554432) by nia.
  destruct (round_aux_shape (xorb sx sy) q (ex - ey - 24)
              (new_location (Zpos my) r) Hqb ltac:(lia)) as [m [e2 [E H]]].
  exists m, e2. split; [exact E|].
  replace (Zpos mx <? Zpos my) with (q <? 16777216); [exact H|].
  destruct (Z.ltb_spec q 16777216), (Z.ltb_spec (Zpos mx) (Zpos my));
    trivial; nia.
Qed.

Lemma div_le_one_same_sign s mx ex my ey :
  F32.normalized mx ex -> F32.normalized my ey ->
  ex < ey \/ (ex = ey /\ Zpos mx < Zpos my) ->
  F32.leb (F32.div (S754_finite s mx ex) (S754_finite s my ey)) F32.one
  = true.
Proof.
  intros Hx Hy Hlt.
  destruct (div_shape s s mx ex my ey Hx Hy) as [m [e2 [E H]]].
  rewrite E, xorb_nilpotent. cbv zeta in H.
  change F32.one with (S754_finite false 8388608 (-23)).
  unfold F32.leb, SFleb, SFcompare.
  assert (Hb : ex - ey - 24 + (if Zpos mx <? Zpos my then 0 else 1) <= -24).
  { destruct Hlt as [Hlt|[-> Hlt]].
    - destruct (Zpos mx <? Zpos my); lia.
    - destruct (Z.ltb_spec (Zpos mx) (Zpos my)); lia. }
  destruct (Z.compare_spec e2 (-23)) as [Heq|Hl|Hg]; [|reflexivity|lia].
  destruct H as [H|[_ ->]]; [lia|]. reflexivity.
Qed.

Lemma div_le_one_opposite_sign s mx ex my ey :
  F32.normalized mx ex -> F32.normalized my ey ->
  F32.leb (F32.div (S754_finite s mx ex) (S754_finite (negb s) my ey))
          F32.one = true.
Proof.
  intros Hx Hy.
  destruct (div_shape s (negb s) mx ex my ey Hx Hy) as [m [e2 [E _]]].
  rewrite E. destruct s; reflexivity.
Qed.

Lemma of_int_normal z :
  1 <= z <= 98304 ->
  exists m e,
    F32.of_int z = S754_finite false m e /\ F32.of_int (- z) = S754_finite true m e
    /\ F32.normalized m e /\ Zpos m = z * 2 ^ (- e).
Proof.
  intros Hz.
  pose proof (all_from_spec F32.normal_int _ _ normal_ints z ltac:(lia)) as H.
  unfold F32.normal_int in H.
  destruct (F32.of_int z) as [| | |[] m e]; try discriminate.
  destruct (F32.of_int (- z)) as [| | |[] m' e']; try discriminate.
  repeat (apply andb_true_iff in H; destruct H as [H ?]).
  apply Pos.eqb_eq in H. subst m'.
  exists m, e. unfold F32.normalized.
  repeat match goal with
  | H : (_ =? _) = true |- _ => apply Z.eqb_eq in H
  | H : (_ <=? _) = true |- _ => apply Z.leb_le in H
  | H : (_ <? _) = true |- _ => apply Z.ltb_lt in H
  end.
  subst e'. repeat split; trivial.
Qed.

Lemma normalized_order a b ma ea mb eb :
  0 < a < b -> F32.normalized ma ea -> F32.normalized mb eb ->
  Zpos ma = a * 2 ^ (- ea) -> Zpos mb = b * 2 ^ (- eb) ->
  ea < eb \/ (ea = eb /\ Zpos ma < Zpos mb).
Proof.
  intros Hab [Ha Hea] [Hb Heb] Ea Eb.
  destruct (Z.lt_trichotomy ea eb) as [Hlt|[Heq|Hgt]]; [now left| |].
  - right. split; [assumption|]. rewrite Ea, Eb, Heq.
    apply Z.mul_lt_mono_pos_r; [apply Z.pow_pos_nonneg; lia|lia].
  - exfalso.
    replace (- eb) with ((- ea) + (ea - eb)) in Eb by lia.
    rewrite Z.pow_add_r in Eb by lia.
    assert (2 ^ 1 <= 2 ^ (ea - eb)) by (apply Z.pow_le_mono_r; lia).
    change (2 ^ 1) with 2 in *.
    assert (0 < 2 ^ (- ea)) by (apply Z.pow_pos_nonneg; lia).
    set (P := 2 ^ (- ea)) in *. set (Q := 2 ^ (ea - eb)) in *.
    assert (a * P < b * P) by (apply Z.mul_lt_mono_pos_r; lia).
    assert (b * P * 2 <= b * P * Q) by (apply Z.mul_le_mono_nonneg_l; lia).
    rewrite Z.mul_assoc in Eb. lia.
Qed.

(** The quotient of two small integers, where their exact quotient is
    below one, is at most one after rounding. *)
Lemma int_quotient_le_one n d :
  -98304 <= n <= 98304 -> -98304 <= d <= 98304 ->
  (d < 0 /\ d < n) \/ (0 < d /\ n < d) ->
  F32.leb (F32.div (F32.of_int n) (F32.of_int d)) F32.one = true.
Proof.
  intros Hn Hd Hcase.
  assert (Hdn : exists s md ed a,
             F32.of_int d = S754_finite s md ed /\ F32.normalized md ed
             /\ Zpos md = a * 2 ^ (- ed) /\ 0 < a <= 98304
             /\ d = (if s then - a else a)).
  { destruct (Z.lt_trichotomy d 0) as [H|[H|H]]; [| lia |].
    - destruct (of_int_normal (- d) ltac:(lia)) as [m [e [_ [E [Hm Hv]]]]].
      rewrite Z.opp_involutive in E.
      exists true, m, e, (- d).
      split; [exact E|]. split; [exact Hm|]. split; [exact Hv|].
      split; lia.
    - destruct (of_int_normal d ltac:(lia)) as [m [e [E [_ [Hm Hv]]]]].
      exists false, m, e, d.
      split; [exact E|]. split; [exact Hm|]. split; [exact Hv|].
      split; lia. }
  destruct Hdn as [s [md [ed [a [Ed [Hmd [Hvd [Ha Hs]]]]]]]].
  rewrite Ed.
  destruct (Z.lt_trichotomy n 0) as [H|[H|H]].
  - destruct (of_int_normal (- n) ltac:(lia)) as [m [e [_ [E [Hm Hv]]]]].
    rewrite Z.opp_involutive in E. rewrite E.
    destruct s.
    + apply div_le_one_same_sign; trivial.
      apply (normalized_order (- n) a); trivial. lia.
    + apply (div_le_one_opposite_sign true); trivial.
  - subst n. cbn. destruct s; reflexivity.
  - destruct (of_int_normal n ltac:(lia)) as [m [e [E [_ [Hm Hv]]]]].
    rewrite E. destruct s.
    + apply (div_le_one_opposite_sign false); trivial.
    + apply div_le_one_same_sign; trivial.
      apply (normalized_order n a); trivial. lia.
Qed.

(** ** The general path *)

Section GeneralPath.

Context {ext : Externals}.

Local Abbreviation MAX := AP_MOTORS_MAX_NUM_MOTORS.

Lemma constrain_int16_range amt low high :
  low <= high -> low <= constrain_int16 amt low high <= high.
Proof.
  intros H. unfold constrain_int16.
  destruct (Z.ltb_spec amt low); [lia|].
  destruct (Z.ltb_spec high amt); lia.
Qed.

Lemma mix_set_limit st l a b c : mix (set_limit st l) a b c = mix st a b c.
Proof.
  unfold mix.
  change (roll_pitch_loop (set_limit st l)) with (roll_pitch_loop st).
  set (rp := roll_pitch_loop st).
  change (calc_out_max_range (set_limit st l) c rp)
    with (calc_out_max_range st c rp).
  set (omr := calc_out_max_range st c rp).
  change (pwm_out (_rc_yaw (set_limit st l))) with (pwm_out (_rc_yaw st)).
  destruct (limit_yaw _ _) as [ya ylim].
  change (yaw_loop (set_limit st l) ya rp) with (yaw_loop st ya rp).
  set (ry := yaw_loop st ya rp).
  change (calc_thr_adj (set_limit st l) a b omr ry)
    with (calc_thr_adj st a b omr ry).
  reflexivity.
Qed.

Lemma capture_inputs_set_limit st l :
  capture_inputs (set_limit st l) = set_limit (capture_inputs st) l.
Proof. reflexivity. Qed.

(** The state in which a general-path cycle ends. *)
Lemma output_armed_general st :
  constrain_int16 (servo_out (_rc_throttle st)) 0 (_max_throttle st) <> 0 ->
  exists f,
    fst (output_armed st)
    = set_motor_out (set_limit (capture_inputs st) (general_limit st)) f
    /\ snd (output_armed st) = send_outputs (fst (output_armed st))
    /\ forall j,
         f j = if (j <? MAX)%nat && motor_enabled st j
               then general_out st j
               else motor_out st j.
Proof.
  intros Hnz. unfold output_armed.
  rewrite capture_inputs_set_limit.
  set (cap := capture_inputs st).
  assert (E : (servo_out (_rc_throttle (set_limit cap (mkLimit false false false)))
               =? 0) = false).
  { apply Z.eqb_neq. subst cap.
    change (servo_out (_rc_throttle (capture_inputs st)) <> 0).
    now rewrite capture_inputs_servo_out. }
  rewrite E. clear E. cbn [fst snd].
  set (omin := entry_out_min st). set (omax := entry_out_max st).
  change (radio_out (_rc_throttle (set_limit cap (mkLimit false false false))))
    with (radio_out (_rc_throttle cap)).
  set (below := radio_out (_rc_throttle cap) <? omin).
  set (st2 := if below then _ else _).
  assert (E2 : st2 = set_limit cap (mkLimit false false below)).
  { subst st2. destruct below; reflexivity. }
  clearbody st2. subst st2.
  rewrite !mix_set_limit.
  change (mix cap omin omax (entry_out_mid st)) with (armed_mix st).
  set (m := armed_mix st).
  change (set_limit (set_limit cap (mkLimit false false below))
            (mkLimit (rpy_scaled m) (yaw_limited m || rpy_scaled m)
               (throttle (limit (set_limit cap (mkLimit false false below)))
                || thr_limited m)))
    with (set_limit cap (general_limit st)).
  set (st3 := set_limit cap (general_limit st)).
  destruct (assign_motor_out_spec
              (fun _ i => mix_motor (out_max_range m) (thr_adj m)
                            (rpy_scale m) (rpy m) i) st3) as [f1 [H1 J1]].
  rewrite H1. clear H1.
  change (_throttle_curve_enabled (set_motor_out st3 f1))
    with (_throttle_curve_enabled st).
  set (st5 := if _throttle_curve_enabled st then _ else _).
  assert (H5 : exists f2, st5 = set_motor_out st3 f2
             /\ forall j, f2 j = if (j <? MAX)%nat && motor_enabled st j
                                 then through_curve st (f1 j) else f1 j).
  { subst st5. unfold through_curve.
    destruct (_throttle_curve_enabled st).
    - destruct (assign_motor_out_spec
                  (fun out _ => to_int16 (throttle_curve_get_y out))
                  (set_motor_out st3 f1)) as [f2 [H2 J2]].
      exists f2. split; [rewrite H2; reflexivity|].
      intros j. rewrite J2. reflexivity.
    - exists f1. split; [reflexivity|].
      intros j. now destruct (_ && _). }
  clearbody st5. destruct H5 as [f2 [H5 J5]]. subst st5.
  destruct (assign_motor_out_spec
              (fun out _ => constrain_int16 out omin omax)
              (set_motor_out st3 f2)) as [f3 [H3 J3]].
  exists f3. rewrite H3. split; [reflexivity|].
  split; [reflexivity|].
  intros j. rewrite J3.
  change (motor_enabled (set_motor_out st3 f2) j) with (motor_enabled st j).
  change (motor_out (set_motor_out st3 f2) j) with (f2 j).
  rewrite J5, J1.
  change (motor_enabled st3 j) with (motor_enabled st j).
  change (motor_out st3 j) with (motor_out st j).
  destruct ((j <? MAX)%nat && motor_enabled st j); reflexivity.
Qed.

Lemma general_path_spec st :
  general_path st = true
  <-> constrain_int16 (servo_out (_rc_throttle st)) 0 (_max_throttle st) <> 0.
Proof.
  unfold general_path. rewrite capture_inputs_servo_out, negb_true_iff.
  apply Z.eqb_neq.
Qed.

(** C2, as the code has it.  When the configuration is sound
    ([0 <= min_throttle] and [radio_min + min_throttle <= radio_max],
    the bounds being [int16_t] values), every value written for a motor
    lies in [radio_min, radio_max], on both paths; on the general path
    it lies in [radio_min + min_throttle, radio_max]. *)
Theorem outputs_within_bounds st ch v :
  -32768 <= radio_min (_rc_throttle st) ->
  radio_max (_rc_throttle st) <= 32767 ->
  0 <= _min_throttle st ->
  radio_min (_rc_throttle st) + _min_throttle st
    <= radio_max (_rc_throttle st) ->
  In (rcout_write ch v) (snd (output_armed st)) ->
  radio_min (_rc_throttle st) <= v <= radio_max (_rc_throttle st)
  /\ (general_path st = true ->
      radio_min (_rc_throttle st) + _min_throttle st <= v).
Proof.
  intros Hlo Hhi Hmt Hcfg Hin.
  destruct (Z.eq_dec
              (constrain_int16 (servo_out (_rc_throttle st)) 0
                 (_max_throttle st)) 0) as [Hz|Hnz].
  - destruct (zero_path_outputs st Hz) as [_ Hev].
    rewrite Hev in Hin. apply in_map_iff in Hin.
    destruct Hin as [i [Hi _]]. injection Hi as _ <-.
    assert (Hc : 0 <= clamp (_spin_when_armed st) 0 (_min_throttle st)
                 <= _min_throttle st) by (unfold clamp; lia).
    rewrite to_int16_id by lia. split; [lia|].
    intros Hg. apply general_path_spec in Hg. contradiction.
  - destruct (output_armed_general st Hnz) as [f [Hst [Hev Hf]]].
    rewrite Hev, send_outputs_spec, Hst in Hin.
    apply in_map_iff in Hin. destruct Hin as [i [Hi Hen]].
    apply enabled_slots_spec in Hen. destruct Hen as [Hlt Hen].
    cbn in Hi, Hen. injection Hi as _ <-.
    change (motor_enabled (capture_inputs st) i) with (motor_enabled st i)
      in Hen.
    rewrite Hf, Hen, (proj2 (Nat.ltb_lt i MAX) Hlt). cbn [andb].
    unfold general_out, entry_out_min, entry_out_max.
    rewrite (to_int16_id (radio_min (_rc_throttle st) + _min_throttle st))
      by lia.
    pose proof (constrain_int16_range
                  (through_curve st
                     (mix_motor (out_max_range (armed_mix st))
                        (thr_adj (armed_mix st)) (rpy_scale (armed_mix st))
                        (rpy (armed_mix st)) i))
                  (radio_min (_rc_throttle st) + _min_throttle st)
                  (radio_max (_rc_throttle st)) Hcfg) as Hr.
    split; [lia|]. intros _. lia.
Qed.

(** *** Yaw *)

Lemma calc_yaw_allowed_range omin omax omr l :
  0 <= calc_yaw_allowed omin omax omr l <= 32767.
Proof.
  unfold calc_yaw_allowed.
  pose proof yaw_lower_limit_range as HL.
  match goal with |- context [Z.max (to_int16 ?x) _] =>
    pose proof (to_int16_range x) as Hx end.
  rewrite to_int16_id; lia.
Qed.

Lemma limit_yaw_spec room req :
  0 <= room <= 32767 ->
  limit_yaw room req
  = (if 0 <=? req then Z.min req room else Z.max req (- room),
     room <=? Z.abs req).
Proof.
  intros Hr. unfold limit_yaw.
  destruct (Z.leb_spec 0 req).
  - destruct (Z.ltb_spec req room), (Z.leb_spec room (Z.abs req));
      f_equal; lia.
  - rewrite to_int16_id by lia.
    destruct (Z.ltb_spec (- room) req), (Z.leb_spec room (Z.abs req));
      f_equal; lia.
Qed.

Lemma mix_yaw_fields st omin omax omid :
  let m := mix st omin omax omid in
  yaw_headroom m
  = calc_yaw_allowed omin omax (out_max_range m) (roll_pitch_loop st)
  /\ limit_yaw (yaw_headroom m) (pwm_out (_rc_yaw st))
     = (yaw_allowed m, yaw_limited m)
  /\ rpy m = yaw_loop st (yaw_allowed m) (roll_pitch_loop st).
Proof.
  unfold mix.
  destruct (limit_yaw _ _) as [ya ylim] eqn:Ey.
  destruct (calc_thr_adj _ _ _ _ _) as [adj tlim].
  destruct (calc_rpy_scale _ _ _ _ _) as [sc scd].
  cbn. auto.
Qed.





(** *** The scale of roll, pitch and yaw *)

Lemma float_to_int16_range f : -32768 <= float_to_int16 f <= 32767.
Proof.
  unfold float_to_int16. destruct (F32.trunc f) as [z|].
  - destruct (is_int16 z) eqn:E; [now apply is_int16_spec|].
    apply to_int16_range.
  - apply to_int16_range.
Qed.

Lemma record_rpy_range l i v :
  rpy_in_range l -> -32768 <= v <= 32767 -> rpy_in_range (record_rpy l i v).
Proof.
  intros [Hl Hh] Hv. unfold rpy_in_range, record_rpy. cbn.
  destruct (Z.ltb_spec v (rpy_low l)), (Z.ltb_spec (rpy_high l) v); lia.
Qed.

Lemma roll_pitch_loop_range st : rpy_in_range (roll_pitch_loop st).
Proof.
  unfold roll_pitch_loop. apply for_each_motor_ind.
  - unfold rpy_in_range. cbn. lia.
  - intros l i _ Hl. destruct (motor_enabled st i); [|exact Hl].
    apply record_rpy_range; [exact Hl|apply float_to_int16_range].
Qed.

Lemma yaw_loop_range st ya l :
  rpy_in_range l -> rpy_in_range (yaw_loop st ya l).
Proof.
  intros H0. unfold yaw_loop. apply for_each_motor_ind; [exact H0|].
  intros l' i _ Hl. destruct (motor_enabled st i); [|exact Hl].
  apply record_rpy_range; [exact Hl|apply float_to_int16_range].
Qed.

Lemma calc_thr_adj_range st omin omax omr l :
  -32768 <= fst (calc_thr_adj st omin omax omr l) <= 32767.
Proof.
  unfold calc_thr_adj.
  repeat match goal with
  | |- context [if ?c then _ else _] => destruct c
  end; cbn [fst]; apply to_int16_range.
Qed.

Lemma mix_scale_fields st omin omax omid :
  let m := mix st omin omax omid in
  out_min m = omin /\ out_max m = omax
  /\ calc_rpy_scale omin omax (out_max_range m) (thr_adj m) (rpy m)
     = (rpy_scale m, rpy_scaled m)
  /\ -32768 <= out_max_range m <= 32767
  /\ -32768 <= thr_adj m <= 32767
  /\ rpy_in_range (rpy m).
Proof.
  unfold mix.
  destruct (limit_yaw _ _) as [ya ylim].
  pose proof (calc_thr_adj_range st omin omax
                (calc_out_max_range st omid (roll_pitch_loop st))
                (yaw_loop st ya (roll_pitch_loop st))) as Hadj.
  destruct (calc_thr_adj _ _ _ _ _) as [adj tlim].
  destruct (calc_rpy_scale _ _ _ _ _) as [sc scd] eqn:Es.
  cbn. repeat split; trivial; try apply to_int16_range; try apply Hadj;
    apply yaw_loop_range, roll_pitch_loop_range.
Qed.

(** The scale is at most one, except where the low bound is the one
    missed and its divisor [rpy_low] is zero: there it is plus
    infinity. *)
Lemma calc_rpy_scale_le_one omin omax omr adj l :
  -32768 <= omin <= 32767 -> -32768 <= omax <= 32767 ->
  -32768 <= omr <= 32767 -> -32768 <= adj <= 32767 ->
  rpy_in_range l ->
  let sc := fst (calc_rpy_scale omin omax omr adj l) in
  F32.leb sc F32.one = true
  \/ (rpy_low l = 0 /\ rpy_low l + omr + adj < omin
      /\ sc = S754_infinity false).
Proof.
  intros Hmin Hmax Homr Hadj [Hl Hh]. unfold calc_rpy_scale.
  destruct (Z.ltb_spec (rpy_low l + omr + adj) omin) as [Hlow|Hlow];
    cbn [fst].
  - destruct (Z.eq_dec (rpy_low l) 0) as [E0|Hne].
    + right. split; [exact E0|]. split; [exact Hlow|]. rewrite E0.
      destruct (of_int_normal (omin - adj - omr) ltac:(lia))
        as [m [e [E _]]].
      rewrite E. reflexivity.
    + left. apply int_quotient_le_one; lia.
  - left. destruct (Z.ltb_spec omax (rpy_high l + omr + adj)) as [Hhigh|_];
      cbn [fst]; [|reflexivity].
    destruct (Z.eq_dec (rpy_high l) 0) as [E0|Hne].
    + rewrite E0.
      destruct (of_int_normal (- (omax - adj - omr)) ltac:(lia))
        as [m [e [_ [E _]]]].
      rewrite Z.opp_involutive in E. rewrite E. reflexivity.
    + apply int_quotient_le_one; lia.
Qed.

(** X20.  On the general path the scale factor of the last-resort step is at
    most 1.0, whatever the inputs ([radio_max] being an [int16_t]
    value), except where the low bound is missed while [rpy_low] is
    zero: there the division is by zero and the scale factor is plus
    infinity. *)
Theorem rpy_scale_at_most_one st :
  is_int16 (radio_max (_rc_throttle st)) = true ->
  let m := armed_mix st in
  F32.leb (rpy_scale m) F32.one = true
  \/ (rpy_low (rpy m) = 0
      /\ rpy_low (rpy m) + out_max_range m + thr_adj m < out_min m
      /\ rpy_scale m = S754_infinity false).
Proof.
  intros Hmax m. apply is_int16_spec in Hmax.
  destruct (mix_scale_fields (capture_inputs st) (entry_out_min st)
              (entry_out_max st) (entry_out_mid st))
    as [Emin [Emax [Esc [Homr [Hadj Hrpy]]]]].
  fold (armed_mix st) in Emin, Emax, Esc, Homr, Hadj, Hrpy.
  fold m in Emin, Emax, Esc, Homr, Hadj, Hrpy.
  pose proof (calc_rpy_scale_le_one (entry_out_min st) (entry_out_max st)
                (out_max_range m) (thr_adj m) (rpy m)
                (to_int16_range _) Hmax Homr Hadj Hrpy) as H.
  cbv zeta in H. rewrite Esc in H. cbn [fst] in H. rewrite Emin. exact H.
Qed.

End GeneralPath.

(** ** Centred sticks *)

Lemma mul_zero_finite s f :
  F32.is_finite f = true -> F32.is_zero (F32.mul (S754_zero s) f) = true.
Proof. destruct f; cbn; congruence. Qed.

Lemma mul_finite_zero s f :
  F32.is_finite f = true -> F32.is_zero (F32.mul f (S754_zero s)) = true.
Proof. destruct f; cbn; congruence. Qed.

Lemma add_zero_zero f g :
  F32.is_zero f = true -> F32.is_zero g = true ->
  F32.is_zero (F32.add f g) = true.
Proof.
  destruct f as [[]| | |]; cbn; try congruence;
    destruct g as [[]| | |]; cbn; congruence.
Qed.

Section CentredSticks.

Context {ext : Externals}.

Local Abbreviation MAX := AP_MOTORS_MAX_NUM_MOTORS.

Lemma float_to_int16_zero f : F32.is_zero f = true -> float_to_int16 f = 0.
Proof. destruct f; cbn; congruence. Qed.

Lemma record_rpy_zero l i : zero_rpy l -> zero_rpy (record_rpy l i 0).
Proof.
  intros [Hl [Hh Ho]]. unfold zero_rpy, record_rpy. cbn.
  rewrite Hl, Hh. repeat split.
  intros j. unfold upd. destruct (j =? i)%nat; [reflexivity|apply Ho].
Qed.

Lemma rpy_loop_zero st (cmd : rpy_locals -> nat -> Z) l0 :
  zero_rpy l0 ->
  (forall l i, zero_rpy l -> (i < MAX)%nat -> motor_enabled st i = true ->
               cmd l i = 0) ->
  zero_rpy
    (for_each_motor
       (fun l i => if motor_enabled st i then record_rpy l i (cmd l i) else l)
       l0).
Proof.
  intros H0 Hcmd. apply for_each_motor_ind; [exact H0|].
  intros l i Hi Hl. destruct (motor_enabled st i) eqn:He; [|exact Hl].
  rewrite (Hcmd l i Hl Hi He). now apply record_rpy_zero.
Qed.

(** With roll and pitch at zero, and finite factors, no motor gets a
    roll or pitch contribution. *)
Lemma roll_pitch_loop_zero st :
  pwm_out (_rc_roll st) = 0 -> pwm_out (_rc_pitch st) = 0 ->
  (forall i, (i < MAX)%nat -> motor_enabled st i = true ->
             F32.is_finite (_roll_factor st i) = true
             /\ F32.is_finite (_pitch_factor st i) = true) ->
  zero_rpy (roll_pitch_loop st).
Proof.
  intros Hr Hp Hfin. unfold roll_pitch_loop.
  apply (rpy_loop_zero st (fun _ i => roll_pitch_cmd st i)).
  - repeat split.
  - intros l i _ Hi He. destruct (Hfin i Hi He) as [F1 F2].
    unfold roll_pitch_cmd. rewrite Hr, Hp.
    apply float_to_int16_zero, add_zero_zero;
      now apply (mul_zero_finite false).
Qed.

Lemma yaw_loop_zero st l :
  zero_rpy l ->
  (forall i, (i < MAX)%nat -> motor_enabled st i = true ->
             F32.is_finite (_yaw_factor st i) = true) ->
  zero_rpy (yaw_loop st 0 l).
Proof.
  intros Hl Hfin. unfold yaw_loop.
  apply (rpy_loop_zero st (yaw_cmd st 0)); [exact Hl|].
  intros l' i [_ [_ Ho]] Hi He. unfold yaw_cmd. rewrite Ho.
  apply float_to_int16_zero, add_zero_zero; [reflexivity|].
  now apply (mul_zero_finite false), Hfin.
Qed.

(** The locals of the general path in the concrete scenario: bounds
    1100 and 2000, throttle at 1500, nothing asked of roll, pitch and
    yaw. *)
Lemma mix_centred st :
  radio_out (_rc_throttle st) = 1500 ->
  pwm_out (_rc_roll st) = 0 -> pwm_out (_rc_pitch st) = 0 ->
  pwm_out (_rc_yaw st) = 0 ->
  (forall i, (i < MAX)%nat -> motor_enabled st i = true ->
             F32.is_finite (_roll_factor st i) = true
             /\ F32.is_finite (_pitch_factor st i) = true
             /\ F32.is_finite (_yaw_factor st i) = true) ->
  let m := mix st 1100 2000 1550 in
  out_max_range m + thr_adj m = 1500
  /\ yaw_limited m = false /\ thr_limited m = false
  /\ rpy_scale m = F32.one /\ rpy_scaled m = false
  /\ zero_rpy (rpy m).
Proof.
  intros Hthr Hr Hp Hy Hfin.
  assert (Hl : zero_rpy (roll_pitch_loop st)).
  { apply roll_pitch_loop_zero; trivial. intros i Hi He.
    destruct (Hfin i Hi He) as [? [? ?]]. now split. }
  unfold mix. set (l := roll_pitch_loop st) in *.
  assert (Hl' := Hl). destruct Hl' as [Hlo [Hhi Hout]].
  set (omr := calc_out_max_range st 1550 l).
  assert (Homr : 1500 <= omr <= 1550).
  { subst omr. unfold calc_out_max_range, calc_motor_mid.
    rewrite Hlo, Hhi, Hthr. change (to_int16 (Z.quot (0 + 0) 2)) with 0.
    generalize (Z.quot (1500 + _hover_out st) 2). intros q.
    rewrite to_int16_id; lia. }
  set (room := calc_yaw_allowed 1100 2000 omr l).
  assert (Hroom : 400 <= room <= 32767).
  { subst room. unfold calc_yaw_allowed.
    pose proof yaw_lower_limit_range as HL.
    rewrite Hlo, Hhi. change (Z.quot (0 - 0) 2) with 0.
    rewrite (to_int16_id (Z.min (2000 - omr) (omr - 1100) - 0)) by lia.
    rewrite to_int16_id; lia. }
  assert (Ey : limit_yaw room (pwm_out (_rc_yaw st)) = (0, false)).
  { rewrite Hy. unfold limit_yaw. change (0 <=? 0) with true. cbv iota.
    destruct (Z.ltb_spec 0 room); [reflexivity|lia]. }
  rewrite Ey.
  assert (Hl2 : zero_rpy (yaw_loop st 0 l)).
  { apply yaw_loop_zero; [exact Hl|]. intros i Hi He.
    now destruct (Hfin i Hi He) as [_ [_ ?]]. }
  set (l2 := yaw_loop st 0 l) in *.
  destruct Hl2 as [Hlo2 [Hhi2 Hout2]].
  assert (Et : calc_thr_adj st 1100 2000 omr l2 = (1500 - omr, false)).
  { unfold calc_thr_adj. rewrite Hthr, Hlo2, Hhi2.
    rewrite (to_int16_id (1500 - omr)) by lia.
    destruct (Z.ltb_spec 0 (1500 - omr)); [lia|].
    destruct (Z.ltb_spec (1500 - omr) 0); [|reflexivity].
    f_equal. rewrite to_int16_id; lia. }
  rewrite Et.
  assert (Es : calc_rpy_scale 1100 2000 omr (1500 - omr) l2
               = (F32.one, false)).
  { unfold calc_rpy_scale. rewrite Hlo2, Hhi2.
    destruct (Z.ltb_spec (0 + omr + (1500 - omr)) 1100); [lia|].
    destruct (Z.ltb_spec 2000 (0 + omr + (1500 - omr))); [lia|].
    reflexivity. }
  rewrite Es. cbn [out_max_range thr_adj yaw_limited thr_limited rpy_scale
                   rpy_scaled rpy].
  repeat split; trivial. lia.
Qed.

Lemma add_motor_raw_slot st n r p y o j :
  valid_motor_num n = true ->
  let st' := add_motor_raw st n r p y o in
  let i := Z.to_nat n in
  motor_enabled st' j = (if (j =? i)%nat then true else motor_enabled st j)
  /\ _roll_factor st' j = (if (j =? i)%nat then r else _roll_factor st j)
  /\ _pitch_factor st' j = (if (j =? i)%nat then p else _pitch_factor st j)
  /\ _yaw_factor st' j = (if (j =? i)%nat then y else _yaw_factor st j).
Proof.
  intros Hv. unfold add_motor_raw. rewrite Hv.
  destruct (motor_enabled st (Z.to_nat n)) eqn:He; cbn; unfold upd;
    destruct (Nat.eqb_spec j (Z.to_nat n)) as [->|]; auto.
Qed.

End CentredSticks.

(** *** The concrete scenario *)

Section Scenario.

Context {ext : Externals}.

Local Abbreviation MAX := AP_MOTORS_MAX_NUM_MOTORS.

Variable st0 : AP_MotorsMatrix.
Variables o0 o1 o2 o3 : Z.

Local Abbreviation four_motors := (four_motors st0 o0 o1 o2 o3).

Hypothesis capacity : (4 <= MAX)%nat.
Hypothesis unregistered :
  forall i, (i < MAX)%nat -> motor_enabled st0 i = false.
Hypothesis finite : cosines_finite.

Lemma four_motors_slots i :
  (i < MAX)%nat ->
  motor_enabled four_motors i = (i <? 4)%nat
  /\ (motor_enabled four_motors i = true ->
      F32.is_finite (_roll_factor four_motors i) = true
      /\ F32.is_finite (_pitch_factor four_motors i) = true
      /\ F32.is_finite (_yaw_factor four_motors i) = true).
Proof.
  intros Hi. unfold four_motors, add_motor.
  assert (V : forall n, 0 <= n < 4 -> valid_motor_num n = true)
    by (intros n Hn; apply valid_motor_num_spec; lia).
  destruct (finite 45 ltac:(cbn; tauto)) as [R0 P0].
  destruct (finite 135 ltac:(cbn; tauto)) as [R1 P1].
  destruct (finite 225 ltac:(cbn; tauto)) as [R2 P2].
  destruct (finite 315 ltac:(cbn; tauto)) as [R3 P3].
  pose proof (unregistered i Hi) as U.
  match goal with |- context [add_motor_raw st0 0 ?r ?p ?y o0] =>
    destruct (add_motor_raw_slot st0 0 r p y o0 i (V 0 ltac:(lia)))
      as [E1 [F1 [G1 K1]]];
    set (s1 := add_motor_raw st0 0 r p y o0) in * end.
  match goal with |- context [add_motor_raw s1 1 ?r ?p ?y o1] =>
    destruct (add_motor_raw_slot s1 1 r p y o1 i (V 1 ltac:(lia)))
      as [E2 [F2 [G2 K2]]];
    set (s2 := add_motor_raw s1 1 r p y o1) in * end.
  match goal with |- context [add_motor_raw s2 2 ?r ?p ?y o2] =>
    destruct (add_motor_raw_slot s2 2 r p y o2 i (V 2 ltac:(lia)))
      as [E3 [F3 [G3 K3]]];
    set (s3 := add_motor_raw s2 2 r p y o2) in * end.
  match goal with |- context [add_motor_raw s3 3 ?r ?p ?y o3] =>
    destruct (add_motor_raw_slot s3 3 r p y o3 i (V 3 ltac:(lia)))
      as [E4 [F4 [G4 K4]]];
    set (s4 := add_motor_raw s3 3 r p y o3) in * end.
  change (Z.to_nat 0) with 0%nat in *. change (Z.to_nat 1) with 1%nat in *.
  change (Z.to_nat 2) with 2%nat in *. change (Z.to_nat 3) with 3%nat in *.
  rewrite E4, F4, G4, K4, E3, F3, G3, K3, E2, F2, G2, K2, E1, F1, G1, K1, U.
  clearbody s1 s2 s3 s4.
  destruct (Nat.eqb_spec i 3) as [->|N3]; [now auto|].
  destruct (Nat.eqb_spec i 2) as [->|N2]; [now auto|].
  destruct (Nat.eqb_spec i 1) as [->|N1]; [now auto|].
  destruct (Nat.eqb_spec i 0) as [->|N0]; [now auto|].
  split; [|discriminate].
  symmetry. apply Nat.ltb_ge. lia.
Qed.

Lemma four_motors_enabled_slots :
  enabled_slots four_motors = [0; 1; 2; 3]%nat.
Proof.
  unfold enabled_slots.
  replace MAX with (4 + (MAX - 4))%nat at 1 by lia.
  rewrite seq_app, filter_app.
  rewrite (filter_none _ (seq (0 + 4) (MAX - 4))).
  - cbn [seq filter app].
    rewrite (proj1 (four_motors_slots 0 ltac:(lia))).
    rewrite (proj1 (four_motors_slots 1 ltac:(lia))).
    rewrite (proj1 (four_motors_slots 2 ltac:(lia))).
    rewrite (proj1 (four_motors_slots 3 ltac:(lia))). reflexivity.
  - intros i Hi. apply in_seq in Hi.
    rewrite (proj1 (four_motors_slots i ltac:(lia))).
    apply Nat.ltb_ge. lia.
Qed.

(** C3, as the code has it.  In the concrete scenario (the four motors
    above, [radio_min = 1000], [radio_max = 2000], [min_throttle = 100],
    throttle desired 500 and captured as 1500, roll, pitch and yaw
    captured as 0, no throttle curve), whatever the hover estimate, the
    yaw floor and the test orders are, [output_armed] writes 1500 (the
    throttle's PWM value, not the 1550 of the mid-point) for each of
    the four motors and leaves the three saturation flags false. *)
Theorem concrete_scenario_outputs :
  let st := four_motors in
  radio_min (_rc_throttle st) = 1000 ->
  radio_max (_rc_throttle st) = 2000 ->
  _min_throttle st = 100 ->
  servo_out (_rc_throttle st) = 500 ->
  500 <= _max_throttle st ->
  radio_out (_rc_throttle (capture_inputs st)) = 1500 ->
  pwm_out (_rc_roll (capture_inputs st)) = 0 ->
  pwm_out (_rc_pitch (capture_inputs st)) = 0 ->
  pwm_out (_rc_yaw (capture_inputs st)) = 0 ->
  _throttle_curve_enabled st = false ->
  snd (output_armed st)
  = map (fun i => rcout_write (_motor_to_channel_map st i) 1500)
        [0; 1; 2; 3]%nat
  /\ (forall i, (i < 4)%nat -> motor_out (fst (output_armed st)) i = 1500)
  /\ limit (fst (output_armed st)) = mkLimit false false false.
Proof.
  intros st0' Hmin Hmax Hmt Hso Hmx Hthr Hr Hp Hy Hcurve.
  subst st0'. set (st := four_motors) in *.
  assert (Hnz : constrain_int16 (servo_out (_rc_throttle st)) 0
                  (_max_throttle st) <> 0).
  { rewrite Hso. unfold constrain_int16. change (500 <? 0) with false.
    cbv iota. destruct (Z.ltb_spec (_max_throttle st) 500); lia. }
  destruct (output_armed_general st Hnz) as [f [Hst [Hev Hf]]].
  assert (Emin : entry_out_min st = 1100)
    by (unfold entry_out_min; rewrite Hmin, Hmt; reflexivity).
  assert (Emax : entry_out_max st = 2000) by exact Hmax.
  assert (Emid : entry_out_mid st = 1550)
    by (unfold entry_out_mid; rewrite Emin, Emax; reflexivity).
  assert (Hfin : forall i, (i < MAX)%nat ->
                   motor_enabled (capture_inputs st) i = true ->
                   F32.is_finite (_roll_factor (capture_inputs st) i) = true
                   /\ F32.is_finite (_pitch_factor (capture_inputs st) i) = true
                   /\ F32.is_finite (_yaw_factor (capture_inputs st) i) = true).
  { intros i Hi He. now apply (proj2 (four_motors_slots i Hi)). }
  pose proof (mix_centred (capture_inputs st) Hthr Hr Hp Hy Hfin) as Hmix.
  cbv zeta in Hmix.
  assert (Em : armed_mix st = mix (capture_inputs st) 1100 2000 1550)
    by (unfold armed_mix; now rewrite Emin, Emax, Emid).
  rewrite <- Em in Hmix.
  destruct Hmix as [Hsum [Hyl [Htl [Hsc [Hsd [_ [_ Hout]]]]]]].
  assert (Hgo : forall i, general_out st i = 1500).
  { intros i. unfold general_out, through_curve, mix_motor.
    rewrite Hcurve, Hsum, Hsc, Hout, Emin, Emax. reflexivity. }
  assert (Hfi : forall i, (i < 4)%nat -> f i = 1500).
  { intros i Hi. rewrite Hf, Hgo.
    unfold st. rewrite (proj1 (four_motors_slots i ltac:(lia))).
    rewrite (proj2 (Nat.ltb_lt i MAX)) by lia.
    rewrite (proj2 (Nat.ltb_lt i 4)) by lia. reflexivity. }
  split; [|split].
  - rewrite Hev, send_outputs_spec, Hst.
    change (enabled_slots (set_motor_out _ f)) with (enabled_slots four_motors).
    rewrite four_motors_enabled_slots.
    cbn [map motor_out set_motor_out _motor_to_channel_map set_limit].
    rewrite !Hfi by lia. reflexivity.
  - intros i Hi. rewrite Hst. cbn [motor_out set_motor_out]. now apply Hfi.
  - rewrite Hst. cbn [limit set_motor_out set_limit]. unfold general_limit.
    rewrite Hsd, Hyl, Htl, Hthr, Emin. reflexivity.
Qed.

End Scenario.


Module MixerRuns.
Import Board.

Lemma zero_throttle_cuts_motors_witness :
  let out :=
    to_int16 (radio_min (_rc_throttle idle)
              + clamp (_spin_when_armed idle) 0 (_min_throttle idle)) in
  (forall i, (i < AP_MOTORS_MAX_NUM_MOTORS)%nat ->
             motor_enabled idle i = true ->
             motor_out (fst (output_armed idle)) i = out)
  /\ snd (output_armed idle)
     = map (fun i => rcout_write (_motor_to_channel_map idle i) out)
           (enabled_slots idle)
  /\ limit (fst (output_armed idle)) = mkLimit true true true.
Proof.
  apply (zero_throttle_cuts_motors idle). vm_compute. reflexivity.
Defined.

Lemma zero_throttle_rewrites_spin_when_armed_witness :
  let st := set_spin_when_armed idle 250 in
  _spin_when_armed (fst (output_armed st))
  = clamp (_spin_when_armed st) 0 (_min_throttle st)
  /\ _min_throttle (fst (output_armed st)) = _min_throttle st.
Proof.
  apply (zero_throttle_rewrites_spin_when_armed (set_spin_when_armed idle 250)).
  vm_compute. reflexivity.
Defined.

Lemma outputs_within_bounds_witness :
  radio_min (_rc_throttle hover) <= 1500 <= radio_max (_rc_throttle hover)
  /\ (general_path hover = true ->
      radio_min (_rc_throttle hover) + _min_throttle hover <= 1500).
Proof.
  apply (outputs_within_bounds hover 0 1500).
  - vm_compute. discriminate.
  - vm_compute. discriminate.
  - vm_compute. discriminate.
  - vm_compute. discriminate.
  - vm_compute. left. reflexivity.
Defined.

(** C2 as stated fails where the configuration is not sound: with a
    negative [min_throttle] the zero-throttle path writes 900, below
    [radio_min = 1000]; with a [min_throttle] larger than the radio
    range the general path writes 2100, above [radio_max = 2000]. *)
Lemma outputs_can_leave_bounds :
  (let st := with_min_throttle idle (-100) in
   In (rcout_write 0 900) (snd (output_armed st))
   /\ general_path st = false
   /\ radio_min (_rc_throttle st) = 1000)
  /\ (let st := with_min_throttle (with_commands quad_x 900 0 500 0) 1100 in
      In (rcout_write 2 2100) (snd (output_armed st))
      /\ general_path st = true
      /\ radio_max (_rc_throttle st) = 2000).
Proof.
  split; vm_compute; (split; [|split; reflexivity]).
  - left. reflexivity.
  - right. right. left. reflexivity.
Qed.



Lemma concrete_scenario_outputs_witness :
  let st := four_motors (with_commands blank 0 0 500 0) 1 2 3 4 in
  snd (output_armed st)
  = map (fun i => rcout_write (_motor_to_channel_map st i) 1500)
        [0; 1; 2; 3]%nat
  /\ (forall i, (i < 4)%nat -> motor_out (fst (output_armed st)) i = 1500)
  /\ limit (fst (output_armed st)) = mkLimit false false false.
Proof.
  apply (concrete_scenario_outputs (with_commands blank 0 0 500 0) 1 2 3 4).
  - cbn. lia.
  - intros i _. reflexivity.
  - intros d [<-|[<-|[<-|[<-|[]]]]]; vm_compute; split; reflexivity.
  - reflexivity.
  - reflexivity.
  - reflexivity.
  - reflexivity.
  - vm_compute. discriminate.
  - vm_compute. reflexivity.
  - vm_compute. reflexivity.
  - vm_compute. reflexivity.
  - vm_compute. reflexivity.
  - reflexivity.
Defined.

(** C3 as stated fails: in the concrete scenario the four motors get
    1500, not 1550. *)
Lemma concrete_scenario_not_1550 :
  snd (output_armed hover)
  = [rcout_write 0 1500; rcout_write 1 1500; rcout_write 2 1500;
     rcout_write 3 1500]
  /\ limit (fst (output_armed hover)) = mkLimit false false false
  /\ ~ (forall i, (i < 4)%nat ->
                  motor_out (fst (output_armed hover)) i = 1550).
Proof.
  split; [vm_compute; reflexivity|]. split; [vm_compute; reflexivity|].
  intros H. specialize (H 0%nat ltac:(lia)). vm_compute in H. discriminate.
Qed.

(** C5.  There is an input of the general path on which the last-resort
    scaling divides by zero: on the four motors with the sticks centred,
    [min_throttle = 300] and the throttle just above zero, the test of
    the low bound holds, its divisor [rpy_low] is zero, and the scale
    factor is the quotient of 45 by 0, plus infinity. *)
Theorem scale_divides_by_zero :
  exists st : AP_MotorsMatrix,
    let m := armed_mix st in
    general_path st = true
    /\ (rpy_low (rpy m) + out_max_range m) + thr_adj m < out_min m
    /\ rpy_low (rpy m) = 0
    /\ rpy_scaled m = true
    /\ rpy_scale m
       = F32.div (F32.of_int (out_min m - thr_adj m - out_max_range m))
                 (F32.of_int (rpy_low (rpy m)))
    /\ rpy_scale m = S754_infinity false.
Proof.
  exists low_throttle. vm_compute. repeat split.
Qed.

(** C4 fails on the code at that input: the scale factor computed by
    the last-resort step is plus infinity, which is not at most 1.
    With a little roll on the same configuration the divisor is not
    zero and the scale factor, about -1.29, is at most 1, as
    [rpy_scale_at_most_one] shows it is wherever the division is not by
    zero. *)
Theorem scale_above_one_at_low_throttle :
  (let m := armed_mix low_throttle in
   general_path low_throttle = true
   /\ rpy_scaled m = true
   /\ rpy_low (rpy m) = 0
   /\ rpy_scale m = S754_infinity false
   /\ F32.leb (rpy_scale m) F32.one = false)
  /\ (let m := armed_mix low_throttle_roll in
      general_path low_throttle_roll = true
      /\ rpy_scaled m = true
      /\ rpy_low (rpy m) = -35
      /\ rpy_scale m = F32.div (F32.of_int 45) (F32.of_int (-35))
      /\ F32.leb (rpy_scale m) F32.one = true).
Proof.
  split; vm_compute; repeat split.
Qed.

End MixerRuns.

(** ** The motor test *)

Lemma flat_map_filter {A B} (c : A -> bool) (g : A -> list B) l :
  flat_map (fun i => if c i then g i else []) l = flat_map g (filter c l).
Proof.
  induction l as [|a l IH]; cbn; [reflexivity|].
  destruct (c a); cbn; now rewrite IH.
Qed.

Lemma flat_map_flat_map {A B C} (f : A -> list B) (g : B -> list C) l :
  flat_map g (flat_map f l) = flat_map (fun x => flat_map g (f x)) l.
Proof.
  induction l as [|a l IH]; cbn; [reflexivity|].
  now rewrite flat_map_app, IH.
Qed.

Lemma flat_map_of_map {A B C} (h : A -> B) (g : B -> list C) l :
  flat_map g (map h l) = flat_map (fun x => g (h x)) l.
Proof. induction l as [|a l IH]; cbn; [reflexivity|]. now rewrite IH. Qed.

Lemma StronglySorted_app {A} (R : A -> A -> Prop) a b :
  StronglySorted R a -> StronglySorted R b ->
  (forall x y, In x a -> In y b -> R x y) ->
  StronglySorted R (a ++ b).
Proof.
  induction a as [|x a IH]; intros Ha Hb Hab; [exact Hb|].
  apply StronglySorted_inv in Ha. destruct Ha as [Ha Hx].
  cbn. constructor.
  - apply IH; trivial. intros u v Hu Hv. apply Hab; [now right|trivial].
  - apply Forall_app. split; [exact Hx|].
    apply Forall_forall. intros y Hy. apply Hab; [now left|trivial].
Qed.

Lemma StronglySorted_filter {A} (R : A -> A -> Prop) (c : A -> bool) l :
  StronglySorted R l -> StronglySorted R (filter c l).
Proof.
  induction 1 as [|x l Hl IH Hx]; cbn; [constructor|].
  destruct (c x); [|exact IH]. constructor; [exact IH|].
  apply Forall_forall. intros y Hy. apply filter_In in Hy.
  rewrite Forall_forall in Hx. now apply Hx.
Qed.

Lemma StronglySorted_impl_in {A} (R R' : A -> A -> Prop) l :
  (forall x y, In x l -> In y l -> R x y -> R' x y) ->
  StronglySorted R l -> StronglySorted R' l.
Proof.
  intros Himp H. induction H as [|x l Hl IH Hx]; constructor.
  - apply IH. intros u v Hu Hv. apply Himp; now right.
  - rewrite Forall_forall in *. intros y Hy.
    apply Himp; [now left|now right|now apply Hx].
Qed.

Lemma StronglySorted_seq a n : StronglySorted lt (seq a n).
Proof.
  revert a. induction n as [|n IH]; intros a; cbn; constructor; [apply IH|].
  apply Forall_forall. intros y Hy. apply in_seq in Hy. lia.
Qed.

Lemma StronglySorted_irrefl_NoDup {A} (R : A -> A -> Prop) l :
  (forall x, ~ R x x) -> StronglySorted R l -> NoDup l.
Proof.
  intros Hirr. induction 1 as [|x l Hl IH Hx]; constructor; [|exact IH].
  intros Hin. rewrite Forall_forall in Hx. exact (Hirr x (Hx x Hin)).
Qed.

Section MotorTest.

Context {ext : Externals}.

Local Abbreviation MAX := AP_MOTORS_MAX_NUM_MOTORS.

(** The outer loop never ends when the greatest order is 255: its
    [uint8_t] counter cannot exceed it. *)
Lemma order_loop_never_left st fuel :
  forall i, 0 <= i <= 255 -> snd (order_loop fuel st i 255) = false.
Proof.
  induction fuel as [|fuel IH]; intros i Hi; [reflexivity|].
  cbn [order_loop]. destruct (Z.leb_spec i 255); [|lia].
  assert (Hw : 0 <= to_uint8 (i + 1) <= 255).
  { unfold to_uint8. pose proof (Z.mod_pos_bound (i + 1) 256). lia. }
  specialize (IH _ Hw).
  destruct (order_loop fuel st (to_uint8 (i + 1)) 255). exact IH.
Qed.

(** [find_orders] yields the least and the greatest test order of all
    the slots: it does not look at [motor_enabled]. *)
Lemma find_orders_fold (order : nat -> Z) l :
  forall mn0 mx0,
    let '(mn, mx) :=
      fold_left
        (fun '(min_order, max_order) i =>
           (if order i <? min_order then order i else min_order,
            if max_order <? order i then order i else max_order))
        l (mn0, mx0) in
    mn <= mn0 /\ mx0 <= mx
    /\ (forall x, In x l -> mn <= order x <= mx)
    /\ (mn = mn0 \/ exists x, In x l /\ order x = mn)
    /\ (mx = mx0 \/ exists x, In x l /\ order x = mx).
Proof.
  induction l as [|a l IH]; intros mn0 mx0; cbn [fold_left].
  - split; [lia|]. split; [lia|]. split; [intros x []|].
    split; now left.
  - set (mn1 := if order a <? mn0 then order a else mn0).
    set (mx1 := if mx0 <? order a then order a else mx0).
    specialize (IH mn1 mx1).
    destruct (fold_left _ l (mn1, mx1)) as [mn mx].
    destruct IH as [H1 [H2 [H3 [H4 H5]]]].
    assert (mn1 <= mn0 /\ mn1 <= order a /\ (mn1 = mn0 \/ mn1 = order a))
      by (subst mn1; destruct (Z.ltb_spec (order a) mn0); lia).
    assert (mx0 <= mx1 /\ order a <= mx1 /\ (mx1 = mx0 \/ mx1 = order a))
      by (subst mx1; destruct (Z.ltb_spec mx0 (order a)); lia).
    split; [lia|]. split; [lia|]. split; [|split].
    + intros x [<-|Hx]; [lia|]. now apply H3.
    + destruct H4 as [->|[y [Hy Ey]]].
      * destruct H as [_ [_ [->| ->]]]; [now left|].
        right. exists a. split; [now left|reflexivity].
      * right. exists y. split; [now right|assumption].
    + destruct H5 as [->|[y [Hy Ey]]].
      * destruct H0 as [_ [_ [->| ->]]]; [now left|].
        right. exists a. split; [now left|reflexivity].
      * right. exists y. split; [now right|assumption].
Qed.

Lemma find_orders_spec st :
  let '(mn, mx) := find_orders st in
  (forall i, (i < MAX)%nat -> mn <= _test_order st i <= mx)
  /\ (exists i, (i < MAX)%nat /\ _test_order st i = mn)
  /\ (exists i, (i < MAX)%nat /\ _test_order st i = mx).
Proof.
  unfold find_orders.
  pose proof max_num_motors_range as HM.
  pose proof (find_orders_fold (_test_order st) (seq 1 (MAX - 1))
                (_test_order st 0%nat) (_test_order st 0%nat)) as H.
  destruct (fold_left _ _ _) as [mn mx].
  destruct H as [H1 [H2 [H3 [H4 H5]]]].
  split; [|split].
  - intros i Hi. destruct i as [|i]; [lia|].
    apply H3, in_seq. lia.
  - destruct H4 as [->|[x [Hx Ex]]].
    + exists 0%nat. split; [lia|reflexivity].
    + exists x. apply in_seq in Hx. split; [lia|assumption].
  - destruct H5 as [->|[x [Hx Ex]]].
    + exists 0%nat. split; [lia|reflexivity].
    + exists x. apply in_seq in Hx. split; [lia|assumption].
Qed.

Lemma find_orders_ignores_enabled st e :
  find_orders (set_motor_enabled st e) = find_orders st.
Proof. reflexivity. Qed.

Lemma output_min_spec st :
  exists f, output_min st = (set_motor_out st f, min_events st).
Proof.
  unfold output_min, for_each_motor, min_events, enabled_slots.
  assert (G : forall k,
            exists f,
              fold_left
                (fun '(st, ev) i =>
                   if motor_enabled st i then
                     let st :=
                       set_motor_out st
                         (upd (motor_out st) i (radio_min (_rc_throttle st))) in
                     (st, ev ++ [rcout_write (_motor_to_channel_map st i)
                                   (motor_out st i)])
                   else (st, ev))
                (seq 0 k) (st, [])
              = (set_motor_out st f,
                 map (fun i => rcout_write (_motor_to_channel_map st i)
                                 (radio_min (_rc_throttle st)))
                     (filter (motor_enabled st) (seq 0 k)))).
  { induction k as [|k [f IH]].
    - exists (motor_out st). cbn. now rewrite set_motor_out_id.
    - rewrite seq_S, fold_left_app, IH, filter_app, map_app.
      cbn [fold_left Nat.add filter motor_enabled set_motor_out].
      destruct (motor_enabled st k).
      + eexists. cbn. rewrite upd_same. reflexivity.
      + exists f. cbn. now rewrite app_nil_r. }
  apply G.
Qed.

Lemma spin_order_spec st i :
  spin_order st i
  = flat_map (spin_motor st) (filter (spins_at st i) (seq 0 MAX)).
Proof.
  unfold spin_order, for_each_motor.
  rewrite (fold_left_collect (spins_at st i) (spin_motor st)).
  cbn [app]. apply flat_map_filter.
Qed.

(** The outer loop is left, after one round per order, when the
    greatest order is below 255. *)
Lemma order_loop_ends st mx :
  mx <= 254 ->
  forall n fuel i,
    0 <= i -> Z.of_nat n = mx + 1 - i -> (n < fuel)%nat ->
    order_loop fuel st i mx
    = (flat_map (fun k => spin_order st (i + Z.of_nat k)) (seq 0 n), true).
Proof.
  intros Hmx. induction n as [|n IH]; intros fuel i Hi Hn Hf;
    (destruct fuel as [|fuel]; [lia|]); cbn [order_loop].
  - destruct (Z.leb_spec i mx); [lia|]. reflexivity.
  - destruct (Z.leb_spec i mx); [|lia].
    rewrite to_uint8_id by lia.
    rewrite (IH fuel (i + 1)) by lia.
    cbn [seq flat_map]. rewrite Z.add_0_r. f_equal. f_equal.
    rewrite <- seq_shift, flat_map_of_map.
    apply flat_map_ext. intros k. f_equal. lia.
Qed.

Lemma test_orders_spec st o :
  In o (test_orders st)
  <-> fst (find_orders st) <= o <= snd (find_orders st).
Proof.
  unfold test_orders. destruct (find_orders st) as [mn mx]. cbn [fst snd].
  rewrite in_map_iff. split.
  - intros [k [<- Hk]]. apply in_seq in Hk. lia.
  - intros Ho. exists (Z.to_nat (o - mn)). split; [lia|].
    apply in_seq. lia.
Qed.

Lemma test_orders_sorted st : StronglySorted Z.lt (test_orders st).
Proof.
  unfold test_orders. destruct (find_orders st) as [mn mx].
  generalize (Z.to_nat (mx + 1 - mn)). intros n.
  generalize 0%nat. induction n as [|n IH]; intros a; cbn;
    constructor; [apply IH|].
  apply Forall_forall. intros y Hy. apply in_map_iff in Hy.
  destruct Hy as [k [<- Hk]]. apply in_seq in Hk. lia.
Qed.

Lemma firing_order_In st j :
  In j (firing_order st) <-> In j (enabled_slots st).
Proof.
  unfold firing_order. rewrite in_flat_map, enabled_slots_spec.
  pose proof (find_orders_spec st) as Hfo.
  split.
  - intros [o [_ Hj]]. apply filter_In in Hj. destruct Hj as [Hj Hs].
    apply in_seq in Hj. unfold spins_at in Hs.
    apply andb_true_iff in Hs. split; [lia|tauto].
  - intros [Hj He]. exists (_test_order st j). split.
    + apply test_orders_spec. destruct (find_orders st) as [mn mx].
      destruct Hfo as [Hb _]. cbn [fst snd]. now apply Hb.
    + apply filter_In. split; [apply in_seq; lia|].
      unfold spins_at. now rewrite He, Z.eqb_refl.
Qed.

Lemma firing_order_sorted st :
  StronglySorted (fires_before st) (firing_order st).
Proof.
  unfold firing_order. pose proof (test_orders_sorted st) as Hs.
  induction Hs as [|o os Hos IH Ho]; cbn [flat_map]; [constructor|].
  apply StronglySorted_app; [|exact IH|].
  - apply (StronglySorted_impl_in lt).
    + intros x y Hx Hy Hlt. right. split; [|exact Hlt].
      apply filter_In in Hx, Hy. unfold spins_at in Hx, Hy.
      destruct Hx as [_ Hx], Hy as [_ Hy].
      apply andb_true_iff in Hx, Hy.
      destruct Hx as [_ Hx], Hy as [_ Hy].
      apply Z.eqb_eq in Hx, Hy. congruence.
    + apply StronglySorted_filter, StronglySorted_seq.
  - intros x y Hx Hy. left.
    apply filter_In in Hx. destruct Hx as [_ Hx].
    apply in_flat_map in Hy. destruct Hy as [o' [Ho' Hy]].
    apply filter_In in Hy. destruct Hy as [_ Hy].
    unfold spins_at in Hx, Hy. apply andb_true_iff in Hx, Hy.
    destruct Hx as [_ Hx], Hy as [_ Hy]. apply Z.eqb_eq in Hx, Hy.
    rewrite Forall_forall in Ho. specialize (Ho o' Ho'). lia.
Qed.

Lemma fires_before_irrefl st a : ~ fires_before st a a.
Proof. unfold fires_before. lia. Qed.

(** X21.  When no slot has the test order 255, the test returns, and what it
    sends is: the minimum to every enabled motor, a pause of 4000 ms,
    one pulse pair (300 ms on, 2000 ms off) for each enabled motor,
    by test order and then by slot, each motor once, and the minimum
    to every enabled motor again. *)
Theorem output_test_sequence st fuel :
  (forall i, (i < MAX)%nat -> 0 <= _test_order st i <= 254) ->
  (256 <= fuel)%nat ->
  (exists st',
     output_test fuel st
     = (st',
        min_events st ++ [scheduler_delay 4000]
        ++ flat_map (spin_motor st) (firing_order st) ++ min_events st,
        true))
  /\ StronglySorted (fires_before st) (firing_order st)
  /\ NoDup (firing_order st)
  /\ (forall j, In j (firing_order st) <-> In j (enabled_slots st)).
Proof.
  intros Hord Hfuel.
  split; [|split; [apply firing_order_sorted|split]].
  - unfold output_test, firing_order, test_orders.
    pose proof (find_orders_spec st) as Hfo.
    destruct (find_orders st) as [mn mx].
    destruct Hfo as [Hall [[a [Ha Ea]] [b [Hb Eb]]]].
    pose proof (Hord a Ha). pose proof (Hord b Hb). pose proof (Hall a Ha).
    destruct (output_min_spec st) as [f Hf]. rewrite Hf.
    destruct (output_min_spec (set_motor_out st f)) as [f' Hf'].
    exists (set_motor_out (set_motor_out st f) f').
    rewrite (order_loop_ends (set_motor_out st f) mx ltac:(lia)
               (Z.to_nat (mx + 1 - mn)) fuel mn) by lia.
    rewrite Hf'. f_equal. f_equal. f_equal. f_equal. f_equal.
    rewrite flat_map_flat_map, flat_map_of_map.
    apply flat_map_ext. intros k.
    rewrite <- spin_order_spec. reflexivity.
  - apply (StronglySorted_irrefl_NoDup (fires_before st)).
    + apply fires_before_irrefl.
    + apply firing_order_sorted.
  - apply firing_order_In.
Qed.

Lemma output_test_never_returns st fuel :
  snd (find_orders st) = 255 -> 0 <= fst (find_orders st) <= 255 ->
  snd (output_test fuel st) = false.
Proof.
  intros Hmax Hmin. unfold output_test.
  destruct (find_orders st) as [mn mx]. cbn in Hmax, Hmin. subst mx.
  destruct (output_min st) as [st1 ev].
  pose proof (order_loop_never_left st1 fuel mn Hmin) as H.
  destruct (order_loop fuel st1 mn 255) as [evs b]. cbn in H. subst b.
  reflexivity.
Qed.

End MotorTest.

Module TestRuns.
Import Board.

(** The test of the four motors with the orders 0, 0, 1, 2: it returns,
    and slots 0 and 1 are pulsed before slot 2, which is pulsed before
    slot 3, each once, between two writes of the minimum to all. *)
Lemma output_test_sequence_run :
  firing_order quad_orders = [0; 1; 2; 3]%nat
  /\ exists st',
       output_test 256 quad_orders
       = (st',
          min_events quad_orders ++ [scheduler_delay 4000]
          ++ flat_map (spin_motor quad_orders) (firing_order quad_orders)
          ++ min_events quad_orders,
          true).
Proof.
  split; [vm_compute; reflexivity|].
  apply (output_test_sequence quad_orders 256); [|lia].
  intros i Hi.
  do 8 (destruct i as [|i]; [vm_compute; split; discriminate|]).
  cbn in Hi. lia.
Defined.

(** C9 fails on the code when a slot has the test order 255: the
    orders found are 0 and 255, the outer loop is never left whatever
    the number of rounds granted, so [output_test] does not return and
    the closing minimum is never sent; within 300 rounds the motor of
    slot 0 (order 1) has been pulsed twice, the second time after the
    motor of order 255. *)
Theorem output_test_hangs_on_order_255 :
  find_orders quad_last_order = (0, 255)
  /\ (forall fuel, snd (output_test fuel quad_last_order) = false)
  /\ pulses 0 (snd (fst (output_test 300 quad_last_order))) = 2%nat.
Proof.
  split; [vm_compute; reflexivity|]. split; [|vm_compute; reflexivity].
  intros fuel. apply output_test_never_returns.
  - vm_compute. reflexivity.
  - vm_compute. split; discriminate.
Qed.

End TestRuns.

(** * Further properties *)

(** ** Registry *)


Section RegistryMore.

Context {ext : Externals}.

Local Abbreviation MAX := AP_MOTORS_MAX_NUM_MOTORS.

Lemma add_motor_raw_order st n r p y o j :
  valid_motor_num n = true ->
  _test_order (add_motor_raw st n r p y o) j
  = (if (j =? Z.to_nat n)%nat then o else _test_order st j).
Proof.
  intros Hv. unfold add_motor_raw. rewrite Hv.
  destruct (motor_enabled st (Z.to_nat n)); reflexivity.
Qed.

Lemma add_motor_raw_count st n r p y o :
  valid_motor_num n = true ->
  _num_motors (add_motor_raw st n r p y o)
  = (if motor_enabled st (Z.to_nat n) then _num_motors st
     else to_int8 (_num_motors st + 1)).
Proof.
  intros Hv. unfold add_motor_raw. rewrite Hv.
  destruct (motor_enabled st (Z.to_nat n)); reflexivity.
Qed.


Lemma remove_motor_order st n i :
  _test_order (remove_motor st n) i = _test_order st i.
Proof.
  unfold remove_motor. destruct (valid_motor_num n); [|reflexivity].
  destruct (motor_enabled st (Z.to_nat n)); reflexivity.
Qed.


(** X2.  Registering a slot a second time replaces its factors and its test
    order and does not count the motor twice. *)
Theorem add_motor_raw_again st n r p y o r' p' y' o' :
  valid_motor_num n = true ->
  let st1 := add_motor_raw st n r p y o in
  let st2 := add_motor_raw st1 n r' p' y' o' in
  _num_motors st2 = _num_motors st1
  /\ (forall j, motor_enabled st2 j = motor_enabled st1 j)
  /\ _roll_factor st2 (Z.to_nat n) = r'
  /\ _pitch_factor st2 (Z.to_nat n) = p'
  /\ _yaw_factor st2 (Z.to_nat n) = y'
  /\ _test_order st2 (Z.to_nat n) = o'.
Proof.
  intros Hv st1 st2. subst st2.
  destruct (add_motor_raw_slot st n r p y o (Z.to_nat n) Hv) as [Een _].
  rewrite Nat.eqb_refl in Een. fold st1 in Een.
  destruct (add_motor_raw_slot st1 n r' p' y' o' (Z.to_nat n) Hv)
    as [_ [F1 [F2 F3]]].
  rewrite Nat.eqb_refl in F1, F2, F3.
  split; [|split; [|repeat split; trivial]].
  - now rewrite add_motor_raw_count, Een.
  - intros j. destruct (add_motor_raw_slot st1 n r' p' y' o' j Hv) as [E _].
    rewrite E. destruct (Nat.eqb_spec j (Z.to_nat n)) as [E'|E'];
      [|reflexivity].
    rewrite E'. now rewrite Een.
  - rewrite add_motor_raw_order by assumption. now rewrite Nat.eqb_refl.
Qed.

(** X3.  [add_motor] registers the slot with the cosines of the angle plus
    90 degrees and of the angle as roll and pitch factors, the yaw
    factor and the test order given; the other slots, the outputs and
    the channel map are left as they were, and the slots enabled
    afterwards are the slot and those enabled before. *)
Theorem add_motor_registers_slot st n a y o :
  valid_motor_num n = true ->
  let st' := add_motor st n a y o in
  let i := Z.to_nat n in
  (motor_enabled st' i = true
   /\ _roll_factor st' i = cosf (radians (F32.add a (F32.of_int 90)))
   /\ _pitch_factor st' i = cosf (radians a)
   /\ _yaw_factor st' i = y
   /\ _test_order st' i = o)
  /\ (forall j, j <> i ->
        motor_enabled st' j = motor_enabled st j
        /\ _roll_factor st' j = _roll_factor st j
        /\ _pitch_factor st' j = _pitch_factor st j
        /\ _yaw_factor st' j = _yaw_factor st j
        /\ _test_order st' j = _test_order st j)
  /\ (forall j, In j (enabled_slots st')
                <-> (j = i \/ In j (enabled_slots st)))
  /\ motor_out st' = motor_out st
  /\ _motor_to_channel_map st' = _motor_to_channel_map st.
Proof.
  intros Hv st' i. subst st'. unfold add_motor.
  set (r := cosf (radians (F32.add a (F32.of_int 90)))).
  set (p := cosf (radians a)).
  assert (Hslot := fun j => add_motor_raw_slot st n r p y o j Hv).
  assert (Hord := fun j => add_motor_raw_order st n r p y o j Hv).
  cbv zeta in Hslot. fold i in Hslot, Hord.
  split; [|split; [|split; [|split]]].
  - destruct (Hslot i) as [E [F1 [F2 F3]]]. specialize (Hord i).
    rewrite Nat.eqb_refl in *. auto.
  - intros j Hj. destruct (Hslot j) as [E [F1 [F2 F3]]]. specialize (Hord j).
    apply Nat.eqb_neq in Hj. rewrite Hj in *. auto.
  - intros j. rewrite !enabled_slots_spec.
    destruct (Hslot j) as [E _]. rewrite E.
    destruct (Nat.eqb_spec j i) as [Ej|Hne].
    + split; [auto|]. intros _. split; [|reflexivity].
      apply valid_motor_num_slot, in_seq in Hv. rewrite Ej. unfold i. lia.
    + split; [auto|]. intros [?|?]; [contradiction|assumption].
  - unfold add_motor_raw. rewrite Hv.
    destruct (motor_enabled st (Z.to_nat n)); reflexivity.
  - unfold add_motor_raw. rewrite Hv.
    destruct (motor_enabled st (Z.to_nat n)); reflexivity.
Qed.

Lemma find_orders_ext a b :
  (forall i, _test_order a i = _test_order b i) ->
  find_orders a = find_orders b.
Proof.
  intros H. unfold find_orders. rewrite (H 0%nat).
  generalize (_test_order b 0%nat, _test_order b 0%nat).
  induction (seq 1 (MAX - 1)) as [|x l IH]; intros acc; [reflexivity|].
  cbn [fold_left]. rewrite <- IH. destruct acc as [mn mx].
  now rewrite H.
Qed.

Lemma remove_all_motors_order st i :
  _test_order (remove_all_motors st) i = _test_order st i.
Proof.
  unfold remove_all_motors.
  change (_test_order (set_num_motors ?s 0) i) with (_test_order s i).
  apply (for_each_motor_ind (fun s => _test_order s i = _test_order st i));
    [reflexivity|].
  intros s k _ Hs. now rewrite remove_motor_order.
Qed.

(** X4.  [remove_all_motors] always leaves no motor: the count is zero, no
    slot is enabled, every factor below the capacity is zero and the
    registry invariant holds, whatever the object was before. *)
Theorem remove_all_motors_clears st :
  let st' := remove_all_motors st in
  _num_motors st' = 0
  /\ enabled_slots st' = []
  /\ (forall i, (i < MAX)%nat -> factors_zero st' i = true)
  /\ registry_inv st' = true.
Proof.
  intros st'. pose proof (remove_all_motors_inv st) as Hinv. fold st' in Hinv.
  split; [reflexivity|].
  assert (Hdis : forall i, (i < MAX)%nat ->
                   motor_enabled st' i = false /\ factors_zero st' i = true).
  { intros i Hi.
    pose proof (remove_loop_prefix st MAX (le_n _) i Hi) as H.
    exact H. }
  split; [|split; [|exact Hinv]].
  - unfold enabled_slots. apply filter_none. intros i Hi.
    apply in_seq in Hi. apply Hdis. lia.
  - intros i Hi. now apply Hdis.
Qed.

(** X5.  Removing motors does not reset their test orders: the least and
    the greatest order that [output_test] finds are the same after
    [remove_motor] and after [remove_all_motors]. *)
Theorem removal_keeps_test_orders st n :
  (forall i, _test_order (remove_motor st n) i = _test_order st i)
  /\ (forall i, _test_order (remove_all_motors st) i = _test_order st i)
  /\ find_orders (remove_motor st n) = find_orders st
  /\ find_orders (remove_all_motors st) = find_orders st.
Proof.
  split; [intros i; apply remove_motor_order|].
  split; [intros i; apply remove_all_motors_order|].
  split; apply find_orders_ext; intros i;
    [apply remove_motor_order|apply remove_all_motors_order].
Qed.

End RegistryMore.

(** ** output_min and output_disarmed *)

Section MinimumOutput.

Context {ext : Externals}.

Local Abbreviation MAX := AP_MOTORS_MAX_NUM_MOTORS.

Lemma output_min_full st :
  exists f,
    output_min st = (set_motor_out st f, min_events st)
    /\ forall j, f j = if (j <? MAX)%nat && motor_enabled st j
                       then radio_min (_rc_throttle st)
                       else motor_out st j.
Proof.
  unfold output_min, for_each_motor, min_events, enabled_slots.
  assert (G : forall k,
            exists f,
              fold_left
                (fun '(st, ev) i =>
                   if motor_enabled st i then
                     let st :=
                       set_motor_out st
                         (upd (motor_out st) i (radio_min (_rc_throttle st))) in
                     (st, ev ++ [rcout_write (_motor_to_channel_map st i)
                                   (motor_out st i)])
                   else (st, ev))
                (seq 0 k) (st, [])
              = (set_motor_out st f,
                 map (fun i => rcout_write (_motor_to_channel_map st i)
                                 (radio_min (_rc_throttle st)))
                     (filter (motor_enabled st) (seq 0 k)))
              /\ forall j, f j = if (j <? k)%nat && motor_enabled st j
                                 then radio_min (_rc_throttle st)
                                 else motor_out st j).
  { induction k as [|k [f [IH J]]].
    - exists (motor_out st). cbn. now rewrite set_motor_out_id.
    - rewrite seq_S, fold_left_app, IH, filter_app, map_app.
      cbn [fold_left Nat.add filter motor_enabled set_motor_out].
      destruct (motor_enabled st k) eqn:He.
      + exists (upd f k (radio_min (_rc_throttle st))).
        split; [cbn; rewrite upd_same; reflexivity|].
        intros j. unfold upd. rewrite ltb_S, J.
        destruct (Nat.eqb_spec j k) as [->|Hne].
        * now rewrite Nat.ltb_irrefl, He.
        * now rewrite orb_false_r.
      + exists f. split; [cbn; now rewrite app_nil_r|].
        intros j. rewrite ltb_S, J.
        destruct (Nat.eqb_spec j k) as [->|Hne].
        * now rewrite He, !andb_false_r.
        * now rewrite orb_false_r. }
  apply G.
Qed.

(** X6.  [output_min], which is all [output_disarmed] does, writes
    [radio_min] once for each enabled motor, in slot order, stores it
    in their [motor_out], leaves the other elements alone, and sends
    the same again when it is called again. *)
Theorem output_min_writes_minimum st :
  let st' := fst (output_min st) in
  output_disarmed st = output_min st
  /\ snd (output_min st) = min_events st
  /\ (forall i, (i < MAX)%nat -> motor_enabled st i = true ->
                motor_out st' i = radio_min (_rc_throttle st))
  /\ (forall i, (MAX <= i)%nat \/ motor_enabled st i = false ->
                motor_out st' i = motor_out st i)
  /\ snd (output_min st') = snd (output_min st).
Proof.
  intros st'. subst st'.
  split; [reflexivity|].
  destruct (output_min_full st) as [f [E J]]. rewrite E. cbn [fst snd].
  split; [reflexivity|]. split; [|split].
  - intros i Hi He. cbn. rewrite J, He, (proj2 (Nat.ltb_lt i MAX) Hi).
    reflexivity.
  - intros i Hi. cbn. rewrite J.
    destruct Hi as [Hi|Hi].
    + rewrite (proj2 (Nat.ltb_ge i MAX) Hi). reflexivity.
    + rewrite Hi, andb_false_r. reflexivity.
  - destruct (output_min_full (set_motor_out st f)) as [f' [E' _]].
    rewrite E'. reflexivity.
Qed.

End MinimumOutput.

(** ** What a mixing cycle touches *)

Section CycleFrame.

Context {ext : Externals}.

Local Abbreviation MAX := AP_MOTORS_MAX_NUM_MOTORS.

(** The object a cycle leaves, on either path: the captured inputs,
    new flags, a new [motor_out] and, on the zero-throttle path, the
    range-checked [_spin_when_armed]. *)
Lemma output_armed_shape st :
  exists f l,
    (fst (output_armed st)
     = set_motor_out
         (set_limit
            (if general_path st then capture_inputs st
             else set_spin_when_armed (capture_inputs st)
                    (clamp (_spin_when_armed st) 0 (_min_throttle st)))
            l) f)
    /\ snd (output_armed st) = send_outputs (fst (output_armed st))
    /\ forall j, (MAX <= j)%nat \/ motor_enabled st j = false ->
                 f j = motor_out st j.
Proof.
  destruct (Z.eq_dec
              (constrain_int16 (servo_out (_rc_throttle st)) 0
                 (_max_throttle st)) 0) as [Hz|Hnz].
  - assert (Hg : general_path st = false).
    { destruct (general_path st) eqn:E; [|reflexivity].
      apply general_path_spec in E. contradiction. }
    destruct (output_armed_zero st Hz) as [f [Hst [Hev Hf]]].
    exists f, (mkLimit true true true). rewrite Hg.
    split; [|split; [exact Hev|]].
    + rewrite Hst, range_check_spin_spec. reflexivity.
    + intros j Hj. rewrite Hf. destruct Hj as [Hj|Hj].
      * now rewrite (proj2 (Nat.ltb_ge j MAX) Hj).
      * now rewrite Hj, andb_false_r.
  - assert (Hg : general_path st = true) by now apply general_path_spec.
    destruct (output_armed_general st Hnz) as [f [Hst [Hev Hf]]].
    exists f, (general_limit st). rewrite Hg.
    split; [exact Hst|split; [exact Hev|]].
    intros j Hj. rewrite Hf. destruct Hj as [Hj|Hj].
    + now rewrite (proj2 (Nat.ltb_ge j MAX) Hj).
    + now rewrite Hj, andb_false_r.
Qed.

(** X7.  A mixing cycle never changes the motor table (enabled flags,
    factors, test orders, count, channel map) nor the throttle
    settings, leaves [motor_out] of the slots that are not enabled as
    it was, and writes exactly one value, the new [motor_out], for
    each enabled motor, in slot order, on the motor's channel; on the
    general path [_spin_when_armed] is left alone too. *)
Theorem output_armed_frame st :
  let st' := fst (output_armed st) in
  (motor_enabled st' = motor_enabled st
   /\ _roll_factor st' = _roll_factor st
   /\ _pitch_factor st' = _pitch_factor st
   /\ _yaw_factor st' = _yaw_factor st
   /\ _test_order st' = _test_order st
   /\ _num_motors st' = _num_motors st
   /\ _motor_to_channel_map st' = _motor_to_channel_map st)
  /\ (_min_throttle st' = _min_throttle st
      /\ _max_throttle st' = _max_throttle st
      /\ _hover_out st' = _hover_out st
      /\ _throttle_curve_enabled st' = _throttle_curve_enabled st)
  /\ (forall i, (MAX <= i)%nat \/ motor_enabled st i = false ->
                motor_out st' i = motor_out st i)
  /\ snd (output_armed st)
     = map (fun i => rcout_write (_motor_to_channel_map st i)
                       (motor_out st' i))
           (enabled_slots st)
  /\ (general_path st = true -> _spin_when_armed st' = _spin_when_armed st).
Proof.
  intros st'. subst st'.
  destruct (output_armed_shape st) as [f [l [Hst [Hev Hf]]]].
  rewrite Hev, send_outputs_spec, Hst.
  destruct (general_path st); cbn;
    (split; [repeat split|]); (split; [repeat split|]);
    (split; [exact Hf|]); (split; [reflexivity|]);
    intros H; try discriminate; reflexivity.
Qed.

(** X8.  The flags are computed afresh in every cycle: what a cycle returns
    and sends does not depend on the flags the object held before.
    Whenever a cycle flags roll and pitch it flags yaw as well, and on
    the general path a throttle below [out_min] is always flagged. *)
Theorem limit_flags_fresh_and_consistent st l :
  output_armed (set_limit st l) = output_armed st
  /\ (roll_pitch (limit (fst (output_armed st))) = true ->
      yaw (limit (fst (output_armed st))) = true)
  /\ (general_path st = true ->
      radio_out (_rc_throttle (capture_inputs st)) < entry_out_min st ->
      throttle (limit (fst (output_armed st))) = true).
Proof.
  split.
  { unfold output_armed.
    change (entry_out_min (set_limit st l)) with (entry_out_min st).
    change (entry_out_max (set_limit st l)) with (entry_out_max st).
    change (entry_out_mid (set_limit st l)) with (entry_out_mid st).
    change (set_limit (set_limit st l) (mkLimit false false false))
      with (set_limit st (mkLimit false false false)).
    reflexivity. }
  destruct (Z.eq_dec
              (constrain_int16 (servo_out (_rc_throttle st)) 0
                 (_max_throttle st)) 0) as [Hz|Hnz].
  - destruct (output_armed_zero st Hz) as [f [Hst _]]. rewrite Hst.
    split; [reflexivity|].
    intros Hg. apply general_path_spec in Hg. contradiction.
  - destruct (output_armed_general st Hnz) as [f [Hst _]]. rewrite Hst.
    cbn. split.
    + intros ->. apply orb_true_r.
    + intros _ Hlt. apply Z.ltb_lt in Hlt. now rewrite Hlt.
Qed.

End CycleFrame.

(** ** What a mixing cycle does to its inputs *)

Section CycleInputs.

Context {ext : Externals}.

Local Abbreviation MAX := AP_MOTORS_MAX_NUM_MOTORS.

Lemma output_armed_rc st :
  _rc_roll (fst (output_armed st)) = _rc_roll (capture_inputs st)
  /\ _rc_pitch (fst (output_armed st)) = _rc_pitch (capture_inputs st)
  /\ _rc_throttle (fst (output_armed st)) = _rc_throttle (capture_inputs st)
  /\ _rc_yaw (fst (output_armed st)) = _rc_yaw (capture_inputs st).
Proof.
  destruct (Z.eq_dec
              (constrain_int16 (servo_out (_rc_throttle st)) 0
                 (_max_throttle st)) 0) as [Hz|Hnz].
  - destruct (output_armed_zero st Hz) as [f [Hst _]].
    rewrite Hst, range_check_spin_spec. repeat split.
  - destruct (output_armed_general st Hnz) as [f [Hst _]].
    rewrite Hst. repeat split.
Qed.

(** X9.  A cycle overwrites the throttle's desired value with its value
    constrained to [0, max_throttle] (so it ends within that range when
    [max_throttle] is not negative), and leaves the desired values of
    roll, pitch and yaw and the radio bounds of the four axes alone. *)
Theorem throttle_desired_is_constrained st :
  0 <= _max_throttle st ->
  let st' := fst (output_armed st) in
  servo_out (_rc_throttle st')
  = constrain_int16 (servo_out (_rc_throttle st)) 0 (_max_throttle st)
  /\ 0 <= servo_out (_rc_throttle st') <= _max_throttle st
  /\ servo_out (_rc_roll st') = servo_out (_rc_roll st)
  /\ servo_out (_rc_pitch st') = servo_out (_rc_pitch st)
  /\ servo_out (_rc_yaw st') = servo_out (_rc_yaw st)
  /\ radio_min (_rc_throttle st') = radio_min (_rc_throttle st)
  /\ radio_max (_rc_throttle st') = radio_max (_rc_throttle st).
Proof.
  intros Hmax st'. subst st'.
  destruct (output_armed_rc st) as [Er [Ep [Et Ey]]].
  rewrite Er, Ep, Et, Ey. unfold capture_inputs. cbn.
  rewrite !(proj1 (calc_pwm_keeps _ _)).
  rewrite (proj1 (proj2 (calc_pwm_keeps _ _))).
  rewrite (proj2 (proj2 (calc_pwm_keeps _ _))). cbn.
  pose proof (constrain_int16_range (servo_out (_rc_throttle st)) 0
                (_max_throttle st) Hmax).
  repeat split; trivial; lia.
Qed.

Lemma clamp_idempotent x lo hi : clamp (clamp x lo hi) lo hi = clamp x lo hi.
Proof. unfold clamp. lia. Qed.

(** X10.  A zero-throttle cycle run again on the object it left sends the
    same values and leaves [_spin_when_armed] and the flags as the
    first one did. *)
Theorem zero_throttle_cycle_repeats st :
  0 <= _max_throttle st ->
  constrain_int16 (servo_out (_rc_throttle st)) 0 (_max_throttle st) = 0 ->
  let st1 := fst (output_armed st) in
  snd (output_armed st1) = snd (output_armed st)
  /\ _spin_when_armed (fst (output_armed st1)) = _spin_when_armed st1
  /\ limit (fst (output_armed st1)) = limit st1.
Proof.
  intros Hmax Hz st1.
  destruct (output_armed_zero st Hz) as [f [Hst _]].
  destruct (zero_path_outputs st Hz) as [_ Hev].
  assert (Hfields :
            servo_out (_rc_throttle st1) = 0
            /\ _max_throttle st1 = _max_throttle st
            /\ radio_min (_rc_throttle st1) = radio_min (_rc_throttle st)
            /\ enabled_slots st1 = enabled_slots st
            /\ (forall i, _motor_to_channel_map st1 i
                          = _motor_to_channel_map st i)
            /\ _spin_when_armed st1
               = clamp (_spin_when_armed st) 0 (_min_throttle st)
            /\ _min_throttle st1 = _min_throttle st
            /\ limit st1 = mkLimit true true true).
  { unfold st1. rewrite Hst, range_check_spin_spec. cbn.
    rewrite (proj1 (calc_pwm_keeps _ _)).
    rewrite (proj1 (proj2 (calc_pwm_keeps _ _))). cbn.
    repeat split; trivial. }
  clearbody st1. clear Hst f.
  destruct Hfields as [Eso [Emx [Er [El [Ec [Es [Em Elim]]]]]]].
  assert (Hz1 : constrain_int16 (servo_out (_rc_throttle st1)) 0
                  (_max_throttle st1) = 0).
  { rewrite Eso, Emx. unfold constrain_int16. cbn.
    destruct (Z.ltb_spec (_max_throttle st) 0); [lia|reflexivity]. }
  destruct (output_armed_zero st1 Hz1) as [f1 [Hst1 _]].
  destruct (zero_path_outputs st1 Hz1) as [_ Hev1].
  split; [|split].
  - rewrite Hev1, Hev, El. apply map_ext. intros i.
    rewrite Ec, Er, Es, Em, clamp_idempotent. reflexivity.
  - rewrite Hst1, range_check_spin_spec. cbn.
    rewrite Es, Em. apply clamp_idempotent.
  - rewrite Hst1, Elim. reflexivity.
Qed.

(** X11.  The yaw that is output never exceeds the request nor the headroom
    in magnitude, keeps the sign of the request, and the headroom is
    never below the yaw lower limit. *)
Theorem yaw_output_within_request st :
  let m := armed_mix st in
  let req := pwm_out (_rc_yaw (capture_inputs st)) in
  Z.abs (yaw_allowed m) <= Z.abs req
  /\ Z.abs (yaw_allowed m) <= yaw_headroom m
  /\ (0 <= req -> 0 <= yaw_allowed m)
  /\ (req <= 0 -> yaw_allowed m <= 0)
  /\ AP_MOTORS_MATRIX_YAW_LOWER_LIMIT_PWM <= yaw_headroom m.
Proof.
  intros m req.
  destruct (mix_yaw_fields (capture_inputs st) (entry_out_min st)
              (entry_out_max st) (entry_out_mid st)) as [Hroom [Hlim _]].
  fold (armed_mix st) in Hroom, Hlim. fold m in Hroom, Hlim.
  fold req in Hlim.
  assert (Hr : 0 <= yaw_headroom m <= 32767)
    by (rewrite Hroom; apply calc_yaw_allowed_range).
  assert (HL : AP_MOTORS_MATRIX_YAW_LOWER_LIMIT_PWM <= yaw_headroom m).
  { rewrite Hroom. unfold calc_yaw_allowed.
    pose proof yaw_lower_limit_range as HL.
    match goal with |- context [Z.max (to_int16 ?x) _] =>
      pose proof (to_int16_range x) as Hx end.
    rewrite to_int16_id; lia. }
  rewrite limit_yaw_spec in Hlim by assumption.
  injection Hlim as Hya _. rewrite <- Hya.
  destruct (Z.leb_spec 0 req); repeat split; lia.
Qed.

End CycleInputs.

(** ** Centred sticks *)

Section Symmetry.

Context {ext : Externals}.

Local Abbreviation MAX := AP_MOTORS_MAX_NUM_MOTORS.

(** X12.  With nothing asked of roll, pitch and yaw, and finite factors, all
    the enabled motors get the same output, on either path. *)
Theorem centred_sticks_equal_outputs st i j :
  pwm_out (_rc_roll (capture_inputs st)) = 0 ->
  pwm_out (_rc_pitch (capture_inputs st)) = 0 ->
  pwm_out (_rc_yaw (capture_inputs st)) = 0 ->
  (forall k, (k < MAX)%nat -> motor_enabled st k = true ->
             F32.is_finite (_roll_factor st k) = true
             /\ F32.is_finite (_pitch_factor st k) = true
             /\ F32.is_finite (_yaw_factor st k) = true) ->
  (i < MAX)%nat -> motor_enabled st i = true ->
  (j < MAX)%nat -> motor_enabled st j = true ->
  motor_out (fst (output_armed st)) i = motor_out (fst (output_armed st)) j.
Proof.
  intros Hr Hp Hy Hfin Hi Hei Hj Hej.
  destruct (Z.eq_dec
              (constrain_int16 (servo_out (_rc_throttle st)) 0
                 (_max_throttle st)) 0) as [Hz|Hnz].
  - destruct (zero_path_outputs st Hz) as [Hm _].
    now rewrite (Hm i Hi Hei), (Hm j Hj Hej).
  - destruct (output_armed_general st Hnz) as [f [Hst [_ Hf]]].
    rewrite Hst. cbn [motor_out set_motor_out].
    rewrite !Hf, Hei, Hej.
    rewrite (proj2 (Nat.ltb_lt i MAX) Hi), (proj2 (Nat.ltb_lt j MAX) Hj).
    cbn [andb]. unfold general_out, mix_motor.
    destruct (mix_yaw_fields (capture_inputs st) (entry_out_min st)
                (entry_out_max st) (entry_out_mid st)) as [Hroom [Hlim Hrpy]].
    fold (armed_mix st) in Hroom, Hlim, Hrpy.
    assert (Hr0 : 0 <= yaw_headroom (armed_mix st) <= 32767)
      by (rewrite Hroom; apply calc_yaw_allowed_range).
    rewrite limit_yaw_spec, Hy in Hlim by assumption.
    injection Hlim as Hya _. cbn in Hya.
    assert (Hya0 : yaw_allowed (armed_mix st) = 0) by lia.
    assert (Hz0 : zero_rpy (rpy (armed_mix st))).
    { rewrite Hrpy, Hya0. apply yaw_loop_zero.
      - apply roll_pitch_loop_zero; trivial. intros k Hk He.
        destruct (Hfin k Hk He) as [? [? ?]]. now split.
      - intros k Hk He. now destruct (Hfin k Hk He) as [_ [_ ?]]. }
    destruct Hz0 as [_ [_ Hout]]. now rewrite !Hout.
Qed.

End Symmetry.

Lemma int16_through_floats :
  F32.all_from (Z.to_nat 65536) (-32768) int16_through_float = true.
Proof. vm_compute. reflexivity. Qed.

Section ThrottleOnly.

Context {ext : Externals}.

Local Abbreviation MAX := AP_MOTORS_MAX_NUM_MOTORS.

Lemma mix_thr_fields st omin omax omid :
  let m := mix st omin omax omid in
  out_max_range m = calc_out_max_range st omid (roll_pitch_loop st)
  /\ calc_thr_adj st omin omax (out_max_range m) (rpy m)
     = (thr_adj m, thr_limited m).
Proof.
  unfold mix.
  destruct (limit_yaw _ _) as [ya ylim].
  destruct (calc_thr_adj st omin omax
              (calc_out_max_range st omid (roll_pitch_loop st))
              (yaw_loop st ya (roll_pitch_loop st))) as [adj tlim] eqn:Et.
  destruct (calc_rpy_scale omin omax
              (calc_out_max_range st omid (roll_pitch_loop st)) adj
              (yaw_loop st ya (roll_pitch_loop st))) as [sc scd].
  cbn. auto.
Qed.

(** X13.  With nothing asked of roll, pitch and yaw, and the throttle's PWM
    value within the bounds of the cycle, every enabled motor gets that
    value, through the throttle curve when it is enabled, and neither
    the roll-pitch nor the throttle flag is set. *)
Theorem centred_sticks_pass_throttle st i :
  general_path st = true ->
  pwm_out (_rc_roll (capture_inputs st)) = 0 ->
  pwm_out (_rc_pitch (capture_inputs st)) = 0 ->
  pwm_out (_rc_yaw (capture_inputs st)) = 0 ->
  (forall k, (k < MAX)%nat -> motor_enabled st k = true ->
             F32.is_finite (_roll_factor st k) = true
             /\ F32.is_finite (_pitch_factor st k) = true
             /\ F32.is_finite (_yaw_factor st k) = true) ->
  0 <= entry_out_min st ->
  entry_out_min st <= radio_out (_rc_throttle (capture_inputs st)) ->
  radio_out (_rc_throttle (capture_inputs st)) <= entry_out_max st ->
  entry_out_max st <= 32767 ->
  (i < MAX)%nat -> motor_enabled st i = true ->
  motor_out (fst (output_armed st)) i
  = constrain_int16
      (through_curve st (radio_out (_rc_throttle (capture_inputs st))))
      (entry_out_min st) (entry_out_max st)
  /\ roll_pitch (limit (fst (output_armed st))) = false
  /\ throttle (limit (fst (output_armed st))) = false.
Proof.
  intros Hg Hr Hp Hy Hfin Hmin Hlo Hhi Hmax Hi Hei.
  apply general_path_spec in Hg.
  destruct (output_armed_general st Hg) as [f [Hst [_ Hf]]].
  rewrite Hst. cbn [motor_out set_motor_out limit set_limit].
  rewrite Hf, Hei, (proj2 (Nat.ltb_lt i MAX) Hi). cbn [andb].
  unfold general_out, general_limit.
  cbn [roll_pitch throttle].
  destruct (mix_yaw_fields (capture_inputs st) (entry_out_min st)
              (entry_out_max st) (entry_out_mid st))
    as [Hroom [Hlim Hrpy]].
  destruct (mix_thr_fields (capture_inputs st) (entry_out_min st)
              (entry_out_max st) (entry_out_mid st))
    as [Homr Hadj].
  destruct (mix_scale_fields (capture_inputs st) (entry_out_min st)
              (entry_out_max st) (entry_out_mid st))
    as [_ [_ [Hsc _]]].
  fold (armed_mix st) in Hroom, Hlim, Hrpy, Homr, Hadj, Hsc.
  set (m := armed_mix st) in *.
  set (cap := capture_inputs st) in *.
  set (thr := radio_out (_rc_throttle cap)) in *.
  set (omin := entry_out_min st) in *. set (omax := entry_out_max st) in *.
  assert (Hl : zero_rpy (roll_pitch_loop cap)).
  { apply roll_pitch_loop_zero; trivial. intros k Hk He.
    destruct (Hfin k Hk He) as [? [? ?]]. now split. }
  assert (Hr0 : 0 <= yaw_headroom m <= 32767)
    by (rewrite Hroom; apply calc_yaw_allowed_range).
  rewrite limit_yaw_spec, Hy in Hlim by assumption.
  injection Hlim as Hya _. cbn in Hya.
  assert (Hya0 : yaw_allowed m = 0) by lia.
  assert (Hz0 : zero_rpy (rpy m)).
  { rewrite Hrpy, Hya0. apply yaw_loop_zero; [exact Hl|].
    intros k Hk He. now destruct (Hfin k Hk He) as [_ [_ ?]]. }
  destruct Hl as [Hlo1 [Hhi1 _]]. destruct Hz0 as [Hlo2 [Hhi2 Hout]].
  (* out_max_range lies between the bounds *)
  assert (Hmid : omin <= entry_out_mid st <= omax).
  { unfold entry_out_mid. fold omin omax.
    assert (omin <= Z.quot (omin + omax) 2 <= omax).
    { rewrite Z.quot_div_nonneg by lia.
      pose proof (Z.div_le_lower_bound (omin + omax) 2 omin ltac:(lia)
                    ltac:(lia)).
      pose proof (Z.div_le_upper_bound (omin + omax) 2 omax ltac:(lia)
                    ltac:(lia)). lia. }
    rewrite to_int16_id; lia. }
  assert (Hrange : omin <= out_max_range m <= omax).
  { rewrite Homr. unfold calc_out_max_range, calc_motor_mid.
    rewrite Hlo1, Hhi1. change (to_int16 (Z.quot (0 + 0) 2)) with 0.
    fold thr. rewrite to_int16_id; lia. }
  (* the adjustment brings the throttle back *)
  assert (Ht : out_max_range m + thr_adj m = thr /\ thr_limited m = false).
  { unfold calc_thr_adj in Hadj. fold thr in Hadj.
    rewrite Hlo2, Hhi2 in Hadj.
    rewrite (to_int16_id (thr - out_max_range m)) in Hadj by lia.
    destruct (Z.ltb_spec 0 (thr - out_max_range m)).
    - destruct (Z.ltb_spec (omax - (0 + out_max_range m))
                  (thr - out_max_range m)); [lia|].
      injection Hadj as <- <-. split; [lia|reflexivity].
    - destruct (Z.ltb_spec (thr - out_max_range m) 0).
      + rewrite to_int16_id in Hadj by lia.
        injection Hadj as <- <-. split; [lia|reflexivity].
      + injection Hadj as <- <-. split; [lia|reflexivity]. }
  destruct Ht as [Ht Htl].
  assert (Hs : rpy_scale m = F32.one /\ rpy_scaled m = false).
  { unfold calc_rpy_scale in Hsc. rewrite Hlo2, Hhi2 in Hsc.
    destruct (Z.ltb_spec (0 + out_max_range m + thr_adj m) omin); [lia|].
    destruct (Z.ltb_spec omax (0 + out_max_range m + thr_adj m)); [lia|].
    injection Hsc as <- <-. split; reflexivity. }
  destruct Hs as [Hs Hsd].
  rewrite Hs, Hsd, Htl. split; [|split; [reflexivity|]].
  - f_equal. f_equal.
    unfold mix_motor, float_to_int16. rewrite Hout, Ht.
    pose proof (all_from_spec int16_through_float _ _ int16_through_floats
                  thr ltac:(lia)) as H.
    unfold int16_through_float in H.
    destruct (F32.trunc _) as [z'|]; [|discriminate].
    apply Z.eqb_eq in H. subst z'.
    now rewrite (proj2 (is_int16_spec thr) ltac:(lia)).
  - rewrite orb_false_r. apply Z.ltb_ge. exact Hlo.
Qed.

End ThrottleOnly.

(** ** Update rate, enabling and frame orientation *)

Lemma testbit_shl_uint32_one ch c :
  0 <= ch < 32 -> 0 <= c ->
  Z.testbit (shl_uint32 1 ch) c = (ch =? c).
Proof.
  intros Hch Hc. unfold shl_uint32.
  rewrite Z.shiftl_1_l.
  rewrite Z.mod_small.
  - apply Z.pow2_bits_eqb. lia.
  - split; [apply Z.pow_nonneg; lia|].
    apply Z.pow_lt_mono_r; lia.
Qed.

Lemma existsb_map_comp {A B} (f : A -> B) (p : B -> bool) l :
  existsb p (map f l) = existsb (fun x => p (f x)) l.
Proof.
  induction l as [|a l IH]; cbn; [reflexivity|]. now rewrite IH.
Qed.

Section SetupProps.

Context {ext : Externals} {frame : FrameExternals}.

Local Abbreviation MAX := AP_MOTORS_MAX_NUM_MOTORS.

Lemma channel_mask_fold st l mask0 c :
  (forall i, In i l -> motor_enabled st i = true ->
             0 <= _motor_to_channel_map st i < 32) ->
  0 <= c ->
  Z.testbit
    (fold_left
       (fun mask i =>
          if motor_enabled st i
          then Z.lor mask (shl_uint32 1 (_motor_to_channel_map st i))
          else mask)
       l mask0) c
  = Z.testbit mask0 c
    || existsb (fun i => _motor_to_channel_map st i =? c)
         (filter (motor_enabled st) l).
Proof.
  intros Hch Hc. revert mask0.
  induction l as [|a l IH]; intros mask0; cbn [fold_left filter].
  - cbn. now rewrite orb_false_r.
  - rewrite IH by (intros i Hi; apply Hch; now right).
    destruct (motor_enabled st a) eqn:He; [|reflexivity].
    cbn [existsb]. rewrite Z.lor_spec, testbit_shl_uint32_one;
      [|apply Hch; [now left|assumption]|assumption].
    now rewrite orb_assoc.
Qed.

Lemma channel_mask_spec st c :
  (forall i, (i < MAX)%nat -> motor_enabled st i = true ->
             0 <= _motor_to_channel_map st i < 32) ->
  0 <= c ->
  Z.testbit (channel_mask st) c = existsb (Z.eqb c) (enabled_channels st).
Proof.
  intros Hch Hc.
  unfold channel_mask, for_each_motor, enabled_channels, enabled_slots.
  rewrite channel_mask_fold; trivial.
  - rewrite Z.testbit_0_l, orb_false_l, existsb_map_comp.
    induction (filter _ _) as [|a l IH]; cbn; [reflexivity|].
    now rewrite IH, Z.eqb_sym.
  - intros i Hi. apply in_seq in Hi. apply Hch. lia.
Qed.

(** X14.  [set_update_rate] records the rate and makes one [set_freq] call
    with it; when the channels of the enabled motors are below 32, a
    bit of the mask is set exactly when an enabled motor is on the
    channel of that number. *)
Theorem set_update_rate_mask o speed_hz c :
  (forall i, (i < MAX)%nat -> motor_enabled (matrix o) i = true ->
             0 <= _motor_to_channel_map (matrix o) i < 32) ->
  0 <= c ->
  exists mask,
    set_update_rate o speed_hz
    = (mkSetup (matrix o) speed_hz (_frame_orientation o),
       [rcout_set_freq mask speed_hz])
    /\ Z.testbit mask c = existsb (Z.eqb c) (enabled_channels (matrix o)).
Proof.
  intros Hch Hc. exists (channel_mask (matrix o)). split; [reflexivity|].
  now apply channel_mask_spec.
Qed.

(** X15.  [Init] sets the motors up before it pushes the update rate: the
    one [set_freq] call it makes carries the rate the object holds
    after the set-up and, the channels being below 32, a mask of the
    channels of the motors that [setup_motors] left enabled. *)
Theorem Init_pushes_rate o c :
  let o' := setup_motors (AP_Motors_Init o) in
  (forall i, (i < MAX)%nat -> motor_enabled (matrix o') i = true ->
             0 <= _motor_to_channel_map (matrix o') i < 32) ->
  0 <= c ->
  exists mask,
    Init o = (o', [rcout_set_freq mask (_speed_hz o')])
    /\ Z.testbit mask c = existsb (Z.eqb c) (enabled_channels (matrix o')).
Proof.
  intros o' Hch Hc. exists (channel_mask (matrix o')). split.
  - unfold Init, set_update_rate. fold o'. cbn. now destruct o'.
  - now apply channel_mask_spec.
Qed.

(** X16.  [enable] calls [enable_ch] once for each enabled motor, in slot
    order, on the motor's channel, and for nothing else. *)
Theorem enable_enabled_channels st :
  enable st = map rcout_enable_ch (enabled_channels st).
Proof.
  unfold enable, for_each_motor, enabled_channels, enabled_slots.
  rewrite (fold_left_collect (motor_enabled st)
             (fun i => [rcout_enable_ch (_motor_to_channel_map st i)])).
  cbn [app]. rewrite flat_map_filter_single, map_map. reflexivity.
Qed.

End SetupProps.

Section FrameOrientation.

Context {ext : Externals} {frame : FrameExternals}.

(** X17.  When the parent stores the orientation it is given and
    [setup_motors] keeps it, asking for the same orientation again
    changes nothing and calls nothing: the motors are set up and the
    update rate is pushed only when the orientation changes. *)
Theorem set_frame_orientation_twice o v :
  (forall o', _frame_orientation (AP_Motors_set_frame_orientation o' v) = v) ->
  (forall o', _frame_orientation (setup_motors o') = _frame_orientation o') ->
  let o1 := fst (set_frame_orientation o v) in
  _frame_orientation o1 = v
  /\ set_frame_orientation o1 v = (o1, [])
  /\ (v = _frame_orientation o -> set_frame_orientation o v = (o, []))
  /\ (v <> _frame_orientation o ->
      exists mask,
        snd (set_frame_orientation o v)
        = [rcout_set_freq mask (_speed_hz o1)]).
Proof.
  intros Hstore Hkeep o1.
  assert (H1 : _frame_orientation o1 = v).
  { subst o1. unfold set_frame_orientation.
    destruct (Z.eqb_spec v (_frame_orientation o)) as [E|E].
    - now rewrite E.
    - cbn. now rewrite Hkeep, Hstore. }
  split; [exact H1|]. split; [|split].
  - unfold set_frame_orientation at 1. now rewrite H1, Z.eqb_refl.
  - intros E. unfold set_frame_orientation. rewrite E at 1.
    now rewrite Z.eqb_refl.
  - intros E. subst o1. unfold set_frame_orientation.
    apply Z.eqb_neq in E. rewrite E. cbn. eexists. reflexivity.
Qed.

End FrameOrientation.

(** ** The motor test, whether it returns or not *)

Section MotorTestMore.

Context {ext : Externals}.

Local Abbreviation MAX := AP_MOTORS_MAX_NUM_MOTORS.

(** X18.  The test orders being [uint8_t] values, the test returns exactly
    when no slot, enabled or not, has the order 255; 256 tests of the
    outer loop's condition are then enough. *)
Theorem output_test_returns_iff st :
  (forall i, (i < MAX)%nat -> 0 <= _test_order st i <= 255) ->
  ((exists fuel, snd (output_test fuel st) = true)
   <-> (forall i, (i < MAX)%nat -> _test_order st i <> 255))
  /\ ((forall i, (i < MAX)%nat -> _test_order st i <> 255) ->
      forall fuel, (256 <= fuel)%nat -> snd (output_test fuel st) = true).
Proof.
  intros Hord.
  assert (Hret : (forall i, (i < MAX)%nat -> _test_order st i <> 255) ->
                 forall fuel, (256 <= fuel)%nat ->
                              snd (output_test fuel st) = true).
  { intros Hne fuel Hfuel. unfold output_test.
    pose proof (find_orders_spec st) as Hfo.
    destruct (find_orders st) as [mn mx].
    destruct Hfo as [Hall [[a [Ha Ea]] [b [Hb Eb]]]].
    pose proof (Hord a Ha). pose proof (Hord b Hb). pose proof (Hne b Hb).
    pose proof (Hall a Ha).
    destruct (output_min st) as [st1 ev1].
    rewrite (order_loop_ends st1 mx ltac:(lia)
               (Z.to_nat (mx + 1 - mn)) fuel mn) by lia.
    now destruct (output_min st1). }
  split; [split|exact Hret].
  - intros [fuel Hf] i Hi E.
    pose proof (find_orders_spec st) as Hfo.
    destruct (find_orders st) as [mn mx] eqn:Efo.
    destruct Hfo as [Hall [[a [Ha Ea]] [b [Hb Eb]]]].
    pose proof (Hord a Ha). pose proof (Hord b Hb).
    pose proof (Hall i Hi).
    rewrite (output_test_never_returns st fuel) in Hf; [discriminate| |];
      rewrite Efo; cbn [fst snd]; lia.
  - intros Hne. exists 256%nat. apply Hret; [exact Hne|lia].
Qed.

Lemma order_loop_events st fuel :
  forall i mx e,
    In e (fst (order_loop fuel st i mx)) ->
    exists j, In j (enabled_slots st) /\ In e (spin_motor st j).
Proof.
  induction fuel as [|fuel IH]; intros i mx e; cbn [order_loop].
  - intros [].
  - destruct (i <=? mx); [|intros []].
    specialize (IH (to_uint8 (i + 1)) mx e).
    destruct (order_loop fuel st (to_uint8 (i + 1)) mx) as [evs exited].
    cbn [fst] in *. intros Hin. apply in_app_or in Hin.
    destruct Hin as [Hin|Hin]; [|now apply IH].
    rewrite spin_order_spec in Hin. apply in_flat_map in Hin.
    destruct Hin as [j [Hj He]]. exists j. split; [|exact He].
    apply filter_In in Hj. destruct Hj as [Hj Hs].
    apply enabled_slots_spec. apply in_seq in Hj.
    unfold spins_at in Hs. apply andb_true_iff in Hs. split; [lia|tauto].
Qed.

(** X19.  Whether the test returns or not, it starts by sending the minimum
    to every enabled motor and waiting 4000 ms, and all it ever writes
    goes to the channel of an enabled motor, with the minimum or the
    minimum plus [_min_throttle] as the value. *)
Theorem output_test_writes_enabled_only st fuel :
  (exists rest,
     snd (fst (output_test fuel st))
     = min_events st ++ scheduler_delay 4000 :: rest)
  /\ forall ch v,
       In (rcout_write ch v) (snd (fst (output_test fuel st))) ->
       In ch (enabled_channels st)
       /\ (v = radio_min (_rc_throttle st)
           \/ v = radio_min (_rc_throttle st) + _min_throttle st).
Proof.
  unfold output_test.
  destruct (find_orders st) as [mn mx].
  destruct (output_min_spec st) as [f Hf]. rewrite Hf.
  pose proof (order_loop_events (set_motor_out st f) fuel mn mx) as Hloop.
  destruct (order_loop fuel (set_motor_out st f) mn mx) as [evs exited].
  cbn [fst] in Hloop.
  destruct (output_min_spec (set_motor_out st f)) as [f' Hf'].
  assert (Hmin : forall ch v,
            In (rcout_write ch v) (min_events st) ->
            In ch (enabled_channels st) /\ v = radio_min (_rc_throttle st)).
  { intros ch v Hin. unfold min_events in Hin. apply in_map_iff in Hin.
    destruct Hin as [j [E Hj]]. injection E as <- <-.
    split; [|reflexivity]. unfold enabled_channels. now apply in_map. }
  assert (Hspin : forall ch v,
            In (rcout_write ch v) evs ->
            In ch (enabled_channels st)
            /\ (v = radio_min (_rc_throttle st)
                \/ v = radio_min (_rc_throttle st) + _min_throttle st)).
  { intros ch v Hin. destruct (Hloop _ Hin) as [j [Hj He]].
    change (enabled_slots (set_motor_out st f)) with (enabled_slots st) in Hj.
    cbn in He.
    destruct He as [E|[E|[E|[E|[]]]]]; try discriminate;
      injection E as <- <-;
      (split; [unfold enabled_channels; now apply in_map|auto]). }
  destruct exited.
  - rewrite Hf'. cbn [fst snd]. split.
    + eexists. reflexivity.
    + intros ch v Hin.
      apply in_app_or in Hin. destruct Hin as [Hin|Hin].
      { destruct (Hmin _ _ Hin). auto. }
      cbn [app] in Hin. destruct Hin as [E|Hin]; [discriminate|].
      apply in_app_or in Hin. destruct Hin as [Hin|Hin].
      { now apply Hspin. }
      change (min_events (set_motor_out st f)) with (min_events st) in Hin.
      destruct (Hmin _ _ Hin). auto.
  - cbn [fst snd]. split.
    + eexists. reflexivity.
    + intros ch v Hin.
      apply in_app_or in Hin. destruct Hin as [Hin|Hin].
      { destruct (Hmin _ _ Hin). auto. }
      cbn [app] in Hin. destruct Hin as [E|Hin]; [discriminate|].
      now apply Hspin.
Qed.

End MotorTestMore.

(** ** Runs on the concrete board *)

Module ExtraRuns.
Import Board.
Import Bench.


Lemma add_motor_raw_again_witness :
  let st1 := add_motor_raw blank 2 F32.one F32.one F32.one 3 in
  let st2 := add_motor_raw st1 2 F32.zero F32.one F32.zero 4 in
  _num_motors st2 = _num_motors st1
  /\ (forall j, motor_enabled st2 j = motor_enabled st1 j)
  /\ _roll_factor st2 (Z.to_nat 2) = F32.zero
  /\ _pitch_factor st2 (Z.to_nat 2) = F32.one
  /\ _yaw_factor st2 (Z.to_nat 2) = F32.zero
  /\ _test_order st2 (Z.to_nat 2) = 4.
Proof.
  apply (add_motor_raw_again blank 2 F32.one F32.one F32.one 3
           F32.zero F32.one F32.zero 4).
  vm_compute. reflexivity.
Defined.

Lemma throttle_desired_is_constrained_witness :
  let st := with_commands quad_x 0 0 1200 0 in
  let st' := fst (output_armed st) in
  servo_out (_rc_throttle st')
  = constrain_int16 (servo_out (_rc_throttle st)) 0 (_max_throttle st)
  /\ 0 <= servo_out (_rc_throttle st') <= _max_throttle st
  /\ servo_out (_rc_roll st') = servo_out (_rc_roll st)
  /\ servo_out (_rc_pitch st') = servo_out (_rc_pitch st)
  /\ servo_out (_rc_yaw st') = servo_out (_rc_yaw st)
  /\ radio_min (_rc_throttle st') = radio_min (_rc_throttle st)
  /\ radio_max (_rc_throttle st') = radio_max (_rc_throttle st).
Proof.
  apply (throttle_desired_is_constrained (with_commands quad_x 0 0 1200 0)).
  vm_compute. discriminate.
Defined.

Lemma zero_throttle_cycle_repeats_witness :
  let st := set_spin_when_armed idle 250 in
  let st1 := fst (output_armed st) in
  snd (output_armed st1) = snd (output_armed st)
  /\ _spin_when_armed (fst (output_armed st1)) = _spin_when_armed st1
  /\ limit (fst (output_armed st1)) = limit st1.
Proof.
  apply (zero_throttle_cycle_repeats (set_spin_when_armed idle 250)).
  - vm_compute. discriminate.
  - vm_compute. reflexivity.
Defined.

Lemma quad_x_factors_finite k :
  (k < AP_MOTORS_MAX_NUM_MOTORS)%nat ->
  F32.is_finite (_roll_factor quad_x k) = true
  /\ F32.is_finite (_pitch_factor quad_x k) = true
  /\ F32.is_finite (_yaw_factor quad_x k) = true.
Proof.
  intros Hk.
  do 8 (destruct k as [|k]; [vm_compute; repeat split; reflexivity|]).
  cbn in Hk. lia.
Qed.

Lemma centred_sticks_equal_outputs_witness :
  motor_out (fst (output_armed hover)) 0
  = motor_out (fst (output_armed hover)) 3.
Proof.
  apply (centred_sticks_equal_outputs hover 0 3).
  - vm_compute. reflexivity.
  - vm_compute. reflexivity.
  - vm_compute. reflexivity.
  - intros k Hk _. exact (quad_x_factors_finite k Hk).
  - cbn. lia.
  - vm_compute. reflexivity.
  - cbn. lia.
  - vm_compute. reflexivity.
Defined.

Lemma centred_sticks_pass_throttle_witness :
  motor_out (fst (output_armed hover)) 1
  = constrain_int16
      (through_curve hover (radio_out (_rc_throttle (capture_inputs hover))))
      (entry_out_min hover) (entry_out_max hover)
  /\ roll_pitch (limit (fst (output_armed hover))) = false
  /\ throttle (limit (fst (output_armed hover))) = false.
Proof.
  apply (centred_sticks_pass_throttle hover 1).
  - vm_compute. reflexivity.
  - vm_compute. reflexivity.
  - vm_compute. reflexivity.
  - vm_compute. reflexivity.
  - intros k Hk _. exact (quad_x_factors_finite k Hk).
  - vm_compute. discriminate.
  - vm_compute. discriminate.
  - vm_compute. discriminate.
  - vm_compute. discriminate.
  - cbn. lia.
  - vm_compute. reflexivity.
Defined.

Lemma rpy_scale_at_most_one_witness :
  let m := armed_mix low_throttle_roll in
  F32.leb (rpy_scale m) F32.one = true
  \/ (rpy_low (rpy m) = 0
      /\ rpy_low (rpy m) + out_max_range m + thr_adj m < out_min m
      /\ rpy_scale m = S754_infinity false).
Proof.
  apply (rpy_scale_at_most_one low_throttle_roll).
  vm_compute. reflexivity.
Defined.

Lemma set_update_rate_mask_witness :
  exists mask,
    set_update_rate (mkSetup quad_x 50 0) 490
    = (mkSetup quad_x 490 0, [rcout_set_freq mask 490])
    /\ Z.testbit mask 3
       = existsb (Z.eqb 3) (enabled_channels quad_x).
Proof.
  apply (set_update_rate_mask (mkSetup quad_x 50 0) 490 3).
  - intros i Hi _.
    do 8 (destruct i as [|i]; [vm_compute; split; [discriminate|reflexivity]|]).
    cbn in Hi. lia.
  - lia.
Defined.

Lemma Init_pushes_rate_witness :
  let o' := setup_motors (AP_Motors_Init fresh) in
  exists mask,
    Init fresh = (o', [rcout_set_freq mask (_speed_hz o')])
    /\ Z.testbit mask 4 = existsb (Z.eqb 4) (enabled_channels (matrix o')).
Proof.
  apply (Init_pushes_rate fresh 4).
  - intros i Hi _.
    do 8 (destruct i as [|i]; [vm_compute; split; [discriminate|reflexivity]|]).
    cbn in Hi. lia.
  - lia.
Defined.

Lemma set_frame_orientation_twice_witness :
  let o1 := fst (set_frame_orientation fresh 1) in
  _frame_orientation o1 = 1
  /\ set_frame_orientation o1 1 = (o1, [])
  /\ (1 = _frame_orientation fresh -> set_frame_orientation fresh 1 = (fresh, []))
  /\ (1 <> _frame_orientation fresh ->
      exists mask,
        snd (set_frame_orientation fresh 1)
        = [rcout_set_freq mask (_speed_hz o1)]).
Proof.
  apply (set_frame_orientation_twice fresh 1).
  - intros o'. reflexivity.
  - intros o'. reflexivity.
Defined.

Lemma output_test_returns_iff_witness :
  ((exists fuel, snd (output_test fuel quad_last_order) = true)
   <-> (forall i, (i < AP_MOTORS_MAX_NUM_MOTORS)%nat ->
                  _test_order quad_last_order i <> 255))
  /\ ((forall i, (i < AP_MOTORS_MAX_NUM_MOTORS)%nat ->
                 _test_order quad_last_order i <> 255) ->
      forall fuel, (256 <= fuel)%nat ->
                   snd (output_test fuel quad_last_order) = true).
Proof.
  apply (output_test_returns_iff quad_last_order).
  intros i Hi.
  do 8 (destruct i as [|i]; [vm_compute; split; discriminate|]).
  cbn in Hi. lia.
Defined.

End ExtraRuns.

(** The registration of a fifth motor on the four-motor frame. *)
Module RegistrationRun.
#[local] Existing Instance Board.ext.

Lemma add_motor_registers_slot_witness :
  let st' := add_motor Board.quad_x 6 (F32.of_int 90) F32.one 5 in
  let i := Z.to_nat 6 in
  (motor_enabled st' i = true
   /\ _roll_factor st' i
      = cosf (radians (F32.add (F32.of_int 90) (F32.of_int 90)))
   /\ _pitch_factor st' i = cosf (radians (F32.of_int 90))
   /\ _yaw_factor st' i = F32.one
   /\ _test_order st' i = 5)
  /\ (forall j, j <> i ->
        motor_enabled st' j = motor_enabled Board.quad_x j
        /\ _roll_factor st' j = _roll_factor Board.quad_x j
        /\ _pitch_factor st' j = _pitch_factor Board.quad_x j
        /\ _yaw_factor st' j = _yaw_factor Board.quad_x j
        /\ _test_order st' j = _test_order Board.quad_x j)
  /\ (forall j, In j (enabled_slots st')
                <-> (j = i \/ In j (enabled_slots Board.quad_x)))
  /\ motor_out st' = motor_out Board.quad_x
  /\ _motor_to_channel_map st' = _motor_to_channel_map Board.quad_x.
Proof.
  apply (add_motor_registers_slot Board.quad_x 6 (F32.of_int 90) F32.one 5).
  vm_compute. reflexivity.
Defined.
End RegistrationRun.
